(** * Graph.cpp: adjacency-list graph and subgraph enumeration

    A shallow embedding of [Graph] (src/Graph.cpp): the fixed array of
    vertices with their singly linked edge chains, the edge mutators
    [insertEdge] / [removeEdge], and the enumeration engine
    [enumerateSubgraph] / [extendSubgraph] / [getExtension].

    Conventions.
    - C++ [int] values are modelled by [Z].  The only arithmetic the code
      performs on them is [source - 1], [i++] and [x + 1] on values that
      stay far away from the limits of [int], so no wrap-around is involved;
      the one conversion that does wrap, [int] to [size_t] in the
      comparisons of [extendSubgraph], is written out ([to_size_t]).
    - An [EdgeNode] chain hanging off [edgeHead] is the [list Z] of its
      [adjVertex] fields, head first; [NULL] is [[]].
    - [vertices] is a C array: reading it outside its bounds has no defined
      behaviour.  Array reads therefore go through [vertexAt], which returns
      [None] outside the array, and the enumeration stops with [Fault]
      there.
    - [vector<int>] and [list<int>] are [list Z]. *)

From stdpp Require Import base numbers list strings.

Local Open Scope Z_scope.
#[local] Set Warnings "-clear-no-such-hyp".

(** ** Data model *)

(** Modelled from the spec: the class [GraphData] (declared outside
    src/Graph.cpp) is the opaque vertex label, built from a line of text. *)
Definition GraphData := string.

(** Modelled from the spec: the capacity [MAX_VERTICES] of the array
    [vertices] comes from Graph.h, which is not part of the sources; the file
    header and the spec both fix it to 100. *)
Definition MAX_VERTICES : Z := 100.

(** [struct VertexNode]: a label pointer (possibly [NULL]) and the head of
    the edge chain. *)
Record VertexNode := mkVertexNode {
  data : option GraphData;
  edgeHead : list Z
}.

(** [class Graph]: [size] and the array [vertices]. *)
Record Graph := mkGraph {
  size : Z;
  vertices : list VertexNode
}.

(** A default-constructed [VertexNode]. *)
Definition defaultVertex : VertexNode := mkVertexNode None [].

(** [vertices[v]]: defined only inside the array. *)
Definition vertexAt (g : Graph) (v : Z) : option VertexNode :=
  if v <? 0 then None else vertices g !! Z.to_nat v.

(** Replace the edge chain of [vertices[v]] (the effect of passing
    [vertices[v].edgeHead] by reference to a helper).  The callers only do
    this for an index that [areInRange] has accepted; outside the array
    nothing is written. *)
Definition setEdgeHead (g : Graph) (v : Z) (f : list Z → list Z) : Graph :=
  if v <? 0 then g
  else mkGraph (size g)
         (alter (λ vn, mkVertexNode (data vn) (f (edgeHead vn)))
                (Z.to_nat v) (vertices g)).

(** [Graph::Graph()]. *)
Definition newGraph : Graph :=
  mkGraph 0 (replicate (Z.to_nat MAX_VERTICES) defaultVertex).

(** The state in which [buildGraph] returns at lines 137-138, when the
    stream is at its end right after the vertex count [n] has been read:
    [size] is [n] and no slot has been written, so every label pointer is
    still [NULL]. *)
Definition loadCount (n : Z) : Graph := mkGraph n (vertices newGraph).

(** The state [buildGraph] reaches on its other path, after it has read the
    vertex count [n] and the [n] label lines (lines 135-148), before the
    first edge record: the first [n] slots carry a label, no slot has an
    edge. *)
Definition loadLabels (n : Z) (labels : list GraphData) : Graph :=
  mkGraph n
    (imap (λ i vn, if decide (Z.of_nat i < n)
                   then mkVertexNode (Some (default EmptyString (labels !! i))) []
                   else vn)
          (vertices newGraph)).

(** ** Edge mutation *)

(** [Graph::areInRange]. *)
Definition areInRange (g : Graph) (source destination : Z) : bool :=
  let sourceInRange := (0 <=? source) && (source <? size g) in
  let destInRange := (0 <=? destination) && (destination <? size g) in
  sourceInRange && destInRange.

(** [Graph::insertHelper]: walks to the end of the chain and links [edge]
    there.  The chain is never compared with [edge]. *)
Fixpoint insertHelper (current : list Z) (edge : Z) : list Z :=
  match current with
  | [] => [edge]
  | adjVertex :: nextEdge => adjVertex :: insertHelper nextEdge edge
  end.

(** [Graph::insertEdge]. *)
Definition insertEdge (g : Graph) (source destination : Z) : Graph :=
  let vertexFrom := source - 1 in
  let vertexTo := destination - 1 in
  if negb (vertexFrom =? vertexTo) && areInRange g vertexFrom vertexTo
  then setEdgeHead g vertexFrom (λ current, insertHelper current vertexTo)
  else g.

(** [Graph::removeHelper]: unlinks the first node whose [adjVertex] is
    [destination]. *)
Fixpoint removeHelper (current : list Z) (destination : Z) : list Z :=
  match current with
  | [] => []
  | adjVertex :: nextEdge =>
      if adjVertex =? destination then nextEdge
      else adjVertex :: removeHelper nextEdge destination
  end.

(** [Graph::removeEdge]. *)
Definition removeEdge (g : Graph) (source destination : Z) : Graph :=
  let vertexFrom := source - 1 in
  let vertexTo := destination - 1 in
  if negb (vertexFrom =? vertexTo) && areInRange g vertexFrom vertexTo
  then setEdgeHead g vertexFrom (λ current, removeHelper current vertexTo)
  else g.

(** ** Enumeration: observable behaviour

    [enumerateSubgraph] returns nothing; what it does is visible in the lines
    it writes to [cout] and in the calls it makes.  A run is therefore a
    trace of events together with the way it ended.

    - [EvGetExtension root v Vextension]: [getExtension(v, Vextension)] is
      called while the enumeration is anchored at [root];
    - [EvExtend Vsubgraph Vextension root]:
      [extendSubgraph(Vsubgraph, Vextension, root, k)] is entered;
    - [EvPrint line]: one line of numbers is written to [cout]. *)
Inductive event :=
  | EvGetExtension (root v : Z) (Vextension : list Z)
  | EvExtend (Vsubgraph Vextension : list Z) (root : Z)
  | EvPrint (line : list Z).

(** How a call ends: it returns ([Ret]), it reads [vertices] outside the
    array ([Fault]), or the step budget of the model runs out
    ([OutOfFuel]). *)
Inductive outcome (A : Type) :=
  | Ret (a : A)
  | Fault
  | OutOfFuel.
Arguments Ret {A} a.
Arguments Fault {A}.
Arguments OutOfFuel {A}.

Definition M (A : Type) : Type := list event * outcome A.

#[global] Instance M_ret : MRet M := λ A a, ([], Ret a).
#[global] Instance M_bind : MBind M := λ A B f m,
  match m.2 with
  | Ret a => (m.1 ++ (f a).1, (f a).2)
  | Fault => (m.1, Fault)
  | OutOfFuel => (m.1, OutOfFuel)
  end.

Definition tell (e : event) : M unit := ([e], Ret tt).
Definition fault {A} : M A := ([], Fault).
Definition outOfFuel {A} : M A := ([], OutOfFuel).

(** The lines a trace writes to [cout], in order. *)
Definition printed (t : list event) : list (list Z) :=
  omap (λ e, match e with EvPrint line => Some line | _ => None end) t.

(** Conversion of an [int] to [size_t], as the comparisons between
    [Vsubgraph.size()] and [k] perform it (64-bit [size_t]). *)
Definition to_size_t (k : Z) : Z := k mod 2 ^ 64.

(** ** Extension builder *)

(** [Graph::isDuplicate]. *)
Fixpoint isDuplicate (target : Z) (Vextension : list Z) : bool :=
  match Vextension with
  | [] => false
  | it :: rest => if target =? it then true else isDuplicate target rest
  end.

(** The [for] loop of [getExtension] over the edge chain [w] of
    [vertices[v]], threading [newExtension]. *)
Fixpoint getExtensionLoop (v : Z) (w : list Z) (newExtension : list Z)
  : list Z :=
  match w with
  | [] => newExtension
  | adjVertex :: nextEdge =>
      getExtensionLoop v nextEdge
        (if v <? adjVertex
         then if negb (isDuplicate adjVertex newExtension)
              then newExtension ++ [adjVertex]
              else newExtension
         else newExtension)
  end.

(** [Graph::getExtension]; [None] when [vertices[v]] is outside the array. *)
Definition getExtension (g : Graph) (v : Z) (Vextension : list Z)
  : option (list Z) :=
  match vertexAt g v with
  | Some vn => Some (getExtensionLoop v (edgeHead vn) Vextension)
  | None => None
  end.

(** A call [getExtension(v, Vextension)] inside a run anchored at [root]:
    the call is recorded, and the run stops with [Fault] when the read of
    [vertices[v]] leaves the array. *)
Definition callGetExtension (g : Graph) (root v : Z) (Vextension : list Z)
  : M (list Z) :=
  tell (EvGetExtension root v Vextension);;
  match getExtension g v Vextension with
  | Some newExtension => mret newExtension
  | None => fault
  end.

(** ** Subgraph enumerator *)

(** The [while] loop of [extendSubgraph].  [recur] is the recursive call
    [extendSubgraph(_, _, v, k)]; the loop state is the pair of the local
    copy [Vsubgraph] and the referenced [Vextension], whose final value is
    returned. *)
Fixpoint extendLoop (g : Graph) (recur : list Z → list Z → M (list Z))
    (v k : Z) (Vsubgraph : list Z) (Vextension : list Z) : M (list Z) :=
  match Vextension with
  | [] => mret []
  | w :: rest =>
      if Z.of_nat (length Vsubgraph) <? to_size_t k then
        (* w = front(); pop_front(); push_back(w) *)
        let Vsubgraph1 := Vsubgraph ++ [w] in
        Vextension2 ← callGetExtension g v w rest;
        _ ← recur Vsubgraph1 Vextension2;
        (* pop_back() *)
        extendLoop g recur v k (removelast Vsubgraph1) rest
      else mret (w :: rest)
  end.

(** [Graph::extendSubgraph].  The printed line holds [Vsubgraph[i] + 1] for
    every position.  The result is the state in which the call leaves its
    reference parameter [Vextension]. *)
Fixpoint extendSubgraph (fuel : nat) (g : Graph)
    (Vsubgraph : list Z) (Vextension : list Z) (v k : Z) : M (list Z) :=
  match fuel with
  | O => outOfFuel
  | S fuel' =>
      tell (EvExtend Vsubgraph Vextension v);;
      if Z.of_nat (length Vsubgraph) =? to_size_t k then
        tell (EvPrint (map (λ x, x + 1) Vsubgraph));;
        mret Vextension
      else
        extendLoop g (λ s e, extendSubgraph fuel' g s e v k)
                   v k Vsubgraph Vextension
  end.

(** The anchor loop [for(int i = 0; i <= size; i++)] of
    [enumerateSubgraph], entered with the counter at [i].

    The body declares [Vextension] and initialises it with
    [getExtension(i, Vextension)], that is, from itself before it has been
    constructed.  C++ gives that read no meaning; [self i] stands for the
    contents the copy inside [getExtension] finds in iteration [i] (the empty
    collection when the return value is built in place, as common compilers
    do). *)
Fixpoint anchorLoop (fuel : nat) (depth : nat) (g : Graph) (k : Z)
    (self : Z → list Z) (i : Z) : M unit :=
  if i <=? size g then
    match fuel with
    | O => outOfFuel
    | S fuel' =>
        let Vsubgraph := [] ++ [i] in
        Vextension ← callGetExtension g i i (self i);
        _ ← extendSubgraph depth g Vsubgraph Vextension i k;
        anchorLoop fuel' depth g k self (i + 1)
    end
  else mret tt.

(** [Graph::enumerateSubgraph].  [fuel] bounds both the number of anchor
    iterations and the recursion depth of [extendSubgraph]. *)
Definition enumerateSubgraph (fuel : nat) (g : Graph) (k : Z)
    (self : Z → list Z) : M unit :=
  anchorLoop fuel fuel g k self 0.

(** The usual case: the self-initialised collection is found empty. *)
Definition noSelf : Z → list Z := λ _, [].

(** * The rest of Graph.cpp *)

(** The values [0, 1, ..., n - 1] a loop [for(int i = 0; i < n; i++)]
    gives its counter. *)
Definition indices (n : Z) : list Z := Z.of_nat <$> seq 0 (Z.to_nat n).

(** ** Copy construction *)

(** [Graph::copyAllEdge].  Graph.h is not part of the sources; the
    [EdgeNode] constructor is taken to leave [nextEdge] at [NULL], which is
    what this function relies on when it recurses into the fresh node.  When
    [otherEdge] is [NULL] the target is left as it is. *)
Fixpoint copyAllEdge (thisEdge otherEdge : list Z) : list Z :=
  match otherEdge with
  | [] => thisEdge
  | adjVertex :: nextEdge => adjVertex :: copyAllEdge [] nextEdge
  end.

(** One iteration of the loop of [copyAllVertices]: the label of
    [otherVertices[i]] is dereferenced and copied, then the chain.  [None]
    when a slot lies outside an array or the label pointer is [NULL]. *)
Definition copyVertex (otherVertices : list VertexNode) (this : Graph)
    (i : Z) : option Graph :=
  other ← otherVertices !! Z.to_nat i;
  d ← data other;
  mine ← vertices this !! Z.to_nat i;
  Some (mkGraph (size this)
          (<[Z.to_nat i :=
               mkVertexNode (Some d)
                 (copyAllEdge (edgeHead mine) (edgeHead other))]>
             (vertices this))).

(** [Graph::copyAllVertices]: the loop over [i < size]. *)
Definition copyAllVertices (this : Graph) (otherVertices : list VertexNode)
  : option Graph :=
  foldl (λ acc i, acc ≫= λ g, copyVertex otherVertices g i)
        (Some this) (indices (size this)).

(** [Graph::Graph(const Graph &)]: default-constructed slots, the size of
    the other graph, then [copyAllVertices]. *)
Definition copyGraph (otherGraph : Graph) : option Graph :=
  copyAllVertices (mkGraph (size otherGraph) (vertices newGraph))
                  (vertices otherGraph).

(** ** Reading the edge records *)

(** The edge loop of [buildGraph] (lines 150-156).  [records] are the pairs
    [infile >> src >> dest] delivers, in order, before the stream reports the
    end of the file; the loop also stops at the first pair whose [src] is
    0. *)
Fixpoint buildEdges (g : Graph) (records : list (Z * Z)) : Graph :=
  match records with
  | [] => g
  | (src, dest) :: rest =>
      if src =? 0 then g else buildEdges (insertEdge g src dest) rest
  end.

(** [Graph::buildGraph] on the contents of the stream: the vertex count
    [n]; then either nothing ([None]: the stream is at its end, the function
    returns at once) or the label lines and the edge records. *)
Definition buildGraph (n : Z)
    (rest : option (list GraphData * list (Z * Z))) : Graph :=
  match rest with
  | None => loadCount n
  | Some (labels, records) => buildEdges (loadLabels n labels) records
  end.

(** ** Display *)

(** What is written to [cout]: a string literal, an [int], a label, or
    [endl]. *)
Inductive shown :=
  | ShowStr (s : string)
  | ShowInt (z : Z)
  | ShowData (d : GraphData)
  | ShowEndl.

Definition tabs (n : nat) : string :=
  foldr (λ _ s, String (Ascii.ascii_of_nat 9) s) EmptyString (seq 0 n).

(** [Graph::display]. *)
Definition display (g : Graph) (source destination : Z) : list shown :=
  let vertexFrom := source - 1 in
  let vertexTo := destination - 1 in
  if negb (areInRange g vertexFrom vertexTo)
  then [ShowStr "DISPLAY ERROR: No path exists"; ShowEndl]
  else [ShowInt source; ShowStr (tabs 1); ShowInt destination;
        ShowStr (tabs 1)].

(** [Graph::diplayAllHelper]; [None] when [vertices[source]] lies outside
    the array or its label pointer is [NULL]. *)
Definition diplayAllHelper (g : Graph) (source : Z) : option (list shown) :=
  vn ← vertexAt g source;
  d ← data vn;
  Some ([ShowData d; ShowEndl] ++
        mjoin ((λ i, if bool_decide (source ≠ i)
                     then [ShowStr (tabs 7); ShowInt (source + 1);
                           ShowStr (tabs 2); ShowInt (i + 1);
                           ShowStr (tabs 2)]
                     else []) <$> indices (size g))).

(** [Graph::displayAll]. *)
Definition displayAll (g : Graph) : option (list shown) :=
  rows ← mapM (diplayAllHelper g) (indices (size g));
  Some ([ShowStr ("Description" +:+ tabs 5); ShowStr ("From" +:+ tabs 1);
         ShowStr ("To" +:+ tabs 2)] ++ mjoin rows).

(** * Vocabulary of the statements *)

(** ** Representation invariants and reachable states *)

(** The array has its declared capacity and [size] fits in it. *)
Definition wf (g : Graph) : Prop :=
  length (vertices g) = Z.to_nat MAX_VERTICES ∧ 0 ≤ size g ≤ MAX_VERTICES.

(** Every entry of every edge chain is a vertex index below [size] and
    differs from the vertex that owns the chain. *)
Definition edgeInv (g : Graph) : Prop :=
  ∀ v vn, vertexAt g v = Some vn →
    ∀ u, u ∈ edgeHead vn → (0 ≤ u < size g) ∧ u ≠ v.

(** Every stored edge points into the array. *)
Definition closed (g : Graph) : Prop :=
  ∀ v vn, vertexAt g v = Some vn →
    ∀ u, u ∈ edgeHead vn → is_Some (vertexAt g u).

(** Every entry of [l] is an index into the array. *)
Definition inArray (g : Graph) (l : list Z) : Prop :=
  Forall (λ u, is_Some (vertexAt g u)) l.

(** States built from a freshly loaded graph - loaded with its labels, or
    left without them by the early return of [buildGraph] - by edge
    insertions and removals. *)
Inductive reachable : Graph → Prop :=
  | reach_load n labels :
      0 ≤ n ≤ MAX_VERTICES → reachable (loadLabels n labels)
  | reach_count n :
      0 ≤ n ≤ MAX_VERTICES → reachable (loadCount n)
  | reach_insert g source destination :
      reachable g → reachable (insertEdge g source destination)
  | reach_remove g source destination :
      reachable g → reachable (removeEdge g source destination).

(** The property of C5 for one state: no chain of a vertex in
    [0, size) holds the vertex itself or an index at or above [size]. *)
Definition noSelfNoOverflow (g : Graph) : Prop :=
  ∀ v vn, 0 ≤ v < size g → vertexAt g v = Some vn →
    (v ∉ edgeHead vn) ∧ ∀ u, u ∈ edgeHead vn → ¬ (size g ≤ u).

(** ** The extension rule, as a function of its bound *)

(** The collection [cur] extended, in order, by the [candidates] it does not
    hold yet. *)
Fixpoint appendNew (cur candidates : list Z) : list Z :=
  match candidates with
  | [] => cur
  | u :: rest => appendNew (if decide (u ∈ cur) then cur else cur ++ [u]) rest
  end.

(** The extension rule in the words of the specification, for a lower bound
    [bound]: [cur] plus every neighbour [u] with [u > bound], an entry that
    is already present not being added again, new entries appended behind
    the existing ones in neighbour-list order. *)
Definition extensionAbove (bound : Z) (neighbors cur : list Z) : list Z :=
  appendNew cur (filter (λ u, bound < u) neighbors).

(** ** Fuel and events *)

(** Fuel that covers the distance from [|Vsubgraph|] to [k]. *)
Definition enoughFor (k : Z) (Vsubgraph : list Z) (fuel : nat) : Prop :=
  (Z.to_nat (to_size_t k - Z.of_nat (length Vsubgraph)) < fuel)%nat.

(** Fuel that covers the iterations from [i] up to and including [size]. *)
Definition anchorFuel (g : Graph) (i : Z) (fuel : nat) : Prop :=
  (Z.to_nat (size g - i + 1) ≤ fuel)%nat.

(** Events of an enumeration anchored at [root], below a call whose
    subgraph has [n] vertices, for the target [K] (the [size_t] value of
    [k]): every call is made for that anchor, every nested subgraph has at
    least [n] vertices and at most [K] if [n] was within [K], and every
    printed line has exactly [K] numbers and at least [n]. *)
Definition eventOK (K root : Z) (n : nat) (e : event) : Prop :=
  match e with
  | EvGetExtension r _ _ => r = root
  | EvExtend s _ r =>
      r = root ∧ (n ≤ length s)%nat ∧
      (Z.of_nat n ≤ K → Z.of_nat (length s) ≤ K)
  | EvPrint line => Z.of_nat (length line) = K ∧ (n ≤ length line)%nat
  end.

(** ** Example graphs *)

(** A directed triangle fragment used as a running example: three
    vertices, with the edge records (1,3), (1,2), (2,3). *)
Definition gTri : Graph :=
  insertEdge
    (insertEdge (insertEdge (loadLabels 3 ["a"; "b"; "c"]%string) 1 3) 1 2)
    2 3.

(** The undirected path 1 - 3 - 2 on three vertices, each edge recorded in
    both directions: (1,3), (3,1), (3,2), (2,3).  Vertex 0 has the chain
    [[2]], vertex 1 the chain [[2]], vertex 2 the chain [[0; 1]]. *)
Definition gPath : Graph :=
  insertEdge
    (insertEdge (insertEdge (insertEdge (loadLabels 3 []) 1 3) 3 1) 3 2)
    2 3.

(** Membership in a concrete trace. *)
Ltac solve_elem_of :=
  apply list_elem_of_In; vm_compute;
  repeat (first [left; reflexivity | right]).

(** ** Subgraphs grown along stored edges *)

(** [w] is stored in the chain of [x]. *)
Definition adjacent (g : Graph) (x w : Z) : Prop :=
  ∃ vn, vertexAt g x = Some vn ∧ w ∈ edgeHead vn.

(** A vertex sequence that starts at [root] and in which every later vertex
    is stored in the chain of a vertex before it. *)
Inductive grown (g : Graph) (root : Z) : list Z → Prop :=
  | grown_root : grown g root [root]
  | grown_snoc s x w :
      grown g root s → x ∈ s → adjacent g x w → grown g root (s ++ [w]).

(** An invariant [I root Vsubgraph Vextension] of the arguments of
    [extendSubgraph], read on the events of a run: it holds at every call,
    and every printed line shows a subgraph for which it held. *)
Definition eventInv (I : Z → list Z → list Z → Prop) (e : event) : Prop :=
  match e with
  | EvGetExtension _ _ _ => True
  | EvExtend s x r => I r s x
  | EvPrint line => ∃ r s x, I r s x ∧ line = map (λ v, v + 1) s
  end.

(** The invariants used below. *)
Definition aboveRoot (g : Graph) (r : Z) (s x : list Z) : Prop :=
  ∃ t, s = r :: t ∧ (0 ≤ r ≤ size g) ∧
       Forall (λ u, r < u < size g) t ∧ Forall (λ u, r < u < size g) x.

Definition grownInv (g : Graph) (r : Z) (s x : list Z) : Prop :=
  grown g r s ∧ ∀ u, u ∈ x → ∃ v, v ∈ s ∧ adjacent g v u.

Definition noDupInv (r : Z) (s x : list Z) : Prop := NoDup x.

Definition bareInv (r : Z) (s x : list Z) : Prop := s = [r] ∧ x = [].

(** ** Slots in use *)

(** Every slot from [size] on is still as the default constructor left
    it. *)
Definition unusedInv (g : Graph) : Prop :=
  ∀ v vn, vertexAt g v = Some vn → size g ≤ v → vn = defaultVertex.

(** Every slot below [size] carries a label. *)
Definition labelled (g : Graph) : Prop :=
  ∀ v vn, vertexAt g v = Some vn → v < size g → is_Some (data vn).

(** The message of [display] for a pair it rejects. *)
Definition displayError : list shown :=
  [ShowStr "DISPLAY ERROR: No path exists"; ShowEndl].

(** ** The pairs above a vertex *)

(** The collection [getExtension(i, {})] builds for a vertex of the array:
    the entries of its chain that are greater than [i], each once, in chain
    order. *)
Definition firstExtension (g : Graph) (i : Z) : list Z :=
  match vertexAt g i with
  | Some vn => extensionAbove i (edgeHead vn) []
  | None => []
  end.

(** * Properties of the adjacency store *)

Section GraphStore.

Implicit Types (g : Graph) (v u : Z) (vn : VertexNode).

Lemma vertexAt_Some g v vn :
  vertexAt g v = Some vn → 0 ≤ v ∧ vertices g !! Z.to_nat v = Some vn.
Proof.
  unfold vertexAt. destruct (Z.ltb_spec v 0); [done | auto].
Qed.

Lemma setEdgeHead_size g v f : size (setEdgeHead g v f) = size g.
Proof. unfold setEdgeHead. by destruct (v <? 0). Qed.

Lemma setEdgeHead_length g v f :
  length (vertices (setEdgeHead g v f)) = length (vertices g).
Proof.
  unfold setEdgeHead. destruct (v <? 0); [done | apply length_alter].
Qed.

Lemma vertexAt_setEdgeHead_ne g v f u :
  u ≠ v → vertexAt (setEdgeHead g v f) u = vertexAt g u.
Proof.
  intros Hne. unfold vertexAt, setEdgeHead.
  destruct (Z.ltb_spec v 0); [done |]. simpl.
  destruct (Z.ltb_spec u 0); [done |].
  apply list_lookup_alter_ne. lia.
Qed.

Lemma vertexAt_setEdgeHead_eq g v f :
  vertexAt (setEdgeHead g v f) v =
  (λ vn, mkVertexNode (data vn) (f (edgeHead vn))) <$> vertexAt g v.
Proof.
  unfold vertexAt, setEdgeHead.
  destruct (Z.ltb_spec v 0); [done |]. simpl.
  apply list_lookup_alter_eq.
Qed.

Lemma vertexAt_setEdgeHead_data g v f u :
  data <$> vertexAt (setEdgeHead g v f) u = data <$> vertexAt g u.
Proof.
  destruct (decide (u = v)) as [-> | Hne].
  - rewrite vertexAt_setEdgeHead_eq. by destruct (vertexAt g v).
  - by rewrite vertexAt_setEdgeHead_ne.
Qed.

Lemma areInRange_true g source destination :
  areInRange g source destination = true ↔
  (0 ≤ source < size g) ∧ (0 ≤ destination < size g).
Proof. unfold areInRange. simpl. lia. Qed.

(** What [insertEdge] does, case by case. *)
Lemma insertEdge_cases g source destination :
  (source - 1 ≠ destination - 1 ∧
   areInRange g (source - 1) (destination - 1) = true ∧
   insertEdge g source destination =
     setEdgeHead g (source - 1)
                 (λ current, insertHelper current (destination - 1)))
  ∨ insertEdge g source destination = g.
Proof.
  unfold insertEdge; cbv zeta.
  destruct (Z.eqb_spec (source - 1) (destination - 1)); simpl; [by right |].
  destruct (areInRange g (source - 1) (destination - 1)) eqn:Hr;
    [left; done | by right].
Qed.

Lemma removeEdge_cases g source destination :
  (source - 1 ≠ destination - 1 ∧
   areInRange g (source - 1) (destination - 1) = true ∧
   removeEdge g source destination =
     setEdgeHead g (source - 1)
                 (λ current, removeHelper current (destination - 1)))
  ∨ removeEdge g source destination = g.
Proof.
  unfold removeEdge; cbv zeta.
  destruct (Z.eqb_spec (source - 1) (destination - 1)); simpl; [by right |].
  destruct (areInRange g (source - 1) (destination - 1)) eqn:Hr;
    [left; done | by right].
Qed.

Lemma insertHelper_app current edge :
  insertHelper current edge = current ++ [edge].
Proof. induction current as [| a l IH]; simpl; [done | by rewrite IH]. Qed.

Lemma removeHelper_absent current destination :
  destination ∉ current → removeHelper current destination = current.
Proof.
  induction current as [| a l IH]; simpl; [done |].
  rewrite not_elem_of_cons. intros [Hne Hl].
  destruct (Z.eqb_spec a destination); [congruence |]. by rewrite IH.
Qed.

Lemma removeHelper_present current destination :
  destination ∈ current →
  ∃ l1 l2, current = l1 ++ (destination :: l2) ∧ (destination ∉ l1) ∧
           removeHelper current destination = l1 ++ l2.
Proof.
  induction current as [| a l IH]; simpl.
  - by intros ?%elem_of_nil.
  - intros Hin. destruct (Z.eqb_spec a destination) as [-> | Hne].
    + exists [], l. split_and!; [done | apply not_elem_of_nil | done].
    + apply elem_of_cons in Hin as [? | Hin]; [congruence |].
      destruct (IH Hin) as (l1 & l2 & -> & Hn & ->).
      exists (a :: l1), l2. split_and!; [done | | done].
      rewrite not_elem_of_cons. split; [congruence | done].
Qed.

Lemma removeHelper_subseteq current destination u :
  u ∈ removeHelper current destination → u ∈ current.
Proof.
  induction current as [| a l IH]; simpl; [done |].
  destruct (Z.eqb_spec a destination).
  - intros. by apply elem_of_cons; right.
  - rewrite !elem_of_cons. intros [-> | ?]; [by left | right; auto].
Qed.

End GraphStore.

(** ** Frame of [insertEdge] *)

(** C9.  [insertEdge(a, b)] changes at most the edge chain of vertex [a - 1]:
    [size] and the array length stay, every other slot (the slot of [b - 1]
    in particular, so no mirrored edge appears) is untouched, and no label
    changes. *)
Theorem insertEdge_frame (g : Graph) (a b : Z) :
  size (insertEdge g a b) = size g ∧
  length (vertices (insertEdge g a b)) = length (vertices g) ∧
  (∀ v, v ≠ a - 1 → vertexAt (insertEdge g a b) v = vertexAt g v) ∧
  (∀ v, data <$> vertexAt (insertEdge g a b) v = data <$> vertexAt g v) ∧
  vertexAt (insertEdge g a b) (b - 1) = vertexAt g (b - 1).
Proof.
  destruct (insertEdge_cases g a b) as [(Hne & Hr & ->) | ->]; [| done].
  apply areInRange_true in Hr as [Ha Hb].
  split_and!.
  - apply setEdgeHead_size.
  - apply setEdgeHead_length.
  - intros v Hv. by apply vertexAt_setEdgeHead_ne.
  - intros v. apply vertexAt_setEdgeHead_data.
  - apply vertexAt_setEdgeHead_ne; lia.
Qed.

(** ** [removeEdge] *)

(** C6.  For an in-range pair that is not a self-loop, [removeEdge] unlinks
    the first entry equal to [destination - 1] from the chain of
    [source - 1] and keeps everything before and after it; when there is no
    such entry the graph is returned unchanged.  In both cases [size] and all
    other slots are as before; the operation has no error result. *)
Theorem removeEdge_spec (g : Graph) (source destination : Z)
    (vn : VertexNode) :
  source ≠ destination →
  areInRange g (source - 1) (destination - 1) = true →
  vertexAt g (source - 1) = Some vn →
  (destination - 1 ∈ edgeHead vn →
     ∃ l1 l2, edgeHead vn = l1 ++ (destination - 1 :: l2) ∧
              (destination - 1 ∉ l1) ∧
              vertexAt (removeEdge g source destination) (source - 1) =
                Some (mkVertexNode (data vn) (l1 ++ l2))) ∧
  (destination - 1 ∉ edgeHead vn → removeEdge g source destination = g) ∧
  size (removeEdge g source destination) = size g ∧
  (∀ v, v ≠ source - 1 →
        vertexAt (removeEdge g source destination) v = vertexAt g v).
Proof.
  intros Hsd Hr Hvn.
  assert (removeEdge g source destination =
          setEdgeHead g (source - 1)
            (λ current, removeHelper current (destination - 1))) as Hrm.
  { unfold removeEdge; cbv zeta. rewrite Hr.
    destruct (Z.eqb_spec (source - 1) (destination - 1)); [lia | done]. }
  rewrite Hrm.
  apply areInRange_true in Hr as [Hs Hd].
  split_and!.
  - intros Hin.
    destruct (removeHelper_present _ _ Hin) as (l1 & l2 & E & Hn & Hrh).
    exists l1, l2. split_and!; [done | done |].
    rewrite vertexAt_setEdgeHead_eq, Hvn. simpl. by rewrite Hrh.
  - intros Hn. destruct g as [sz vs]. unfold setEdgeHead.
    destruct (Z.ltb_spec (source - 1) 0); [done |]. simpl. f_equal.
    apply vertexAt_Some in Hvn as [_ Hl]. simpl in Hl.
    apply list_eq. intros i.
    destruct (decide (i = Z.to_nat (source - 1))) as [-> | Hi].
    + rewrite list_lookup_alter_eq, Hl. simpl.
      rewrite removeHelper_absent by done. by destruct vn.
    + by rewrite list_lookup_alter_ne.
  - apply setEdgeHead_size.
  - intros v Hv. by apply vertexAt_setEdgeHead_ne.
Qed.

(** ** Reachable states and the edge invariant *)

Lemma loadLabels_edgeHead n labels v vn :
  vertexAt (loadLabels n labels) v = Some vn → edgeHead vn = [].
Proof.
  intros [_ Hl]%vertexAt_Some.
  unfold loadLabels, newGraph in Hl; cbn [vertices] in Hl.
  rewrite list_lookup_imap in Hl.
  destruct (replicate _ _ !! _) as [d |] eqn:Hd; [| done].
  apply lookup_replicate in Hd as [-> _]. simpl in Hl.
  injection Hl as <-. by case_decide.
Qed.

Lemma loadLabels_wf n labels :
  0 ≤ n ≤ MAX_VERTICES → wf (loadLabels n labels).
Proof.
  intros Hn. split; [| done].
  unfold loadLabels, newGraph; cbn [vertices].
  by rewrite length_imap, length_replicate.
Qed.

Lemma loadCount_edgeHead n v vn :
  vertexAt (loadCount n) v = Some vn → vn = defaultVertex.
Proof.
  intros [_ Hl]%vertexAt_Some.
  unfold loadCount, newGraph in Hl; cbn [vertices] in Hl.
  by apply lookup_replicate in Hl as [-> _].
Qed.

Lemma loadCount_wf n : 0 ≤ n ≤ MAX_VERTICES → wf (loadCount n).
Proof.
  intros Hn. split; [| done].
  unfold loadCount, newGraph; cbn [vertices]. by rewrite length_replicate.
Qed.

Lemma loadCount_edgeInv n : edgeInv (loadCount n).
Proof.
  intros v vn Hv u Hu. rewrite (loadCount_edgeHead _ _ _ Hv) in Hu.
  by apply elem_of_nil in Hu.
Qed.

Lemma loadLabels_edgeInv n labels : edgeInv (loadLabels n labels).
Proof.
  intros v vn Hv u Hu. rewrite (loadLabels_edgeHead _ _ _ _ Hv) in Hu.
  by apply elem_of_nil in Hu.
Qed.

Lemma insertEdge_wf g source destination :
  wf g → wf (insertEdge g source destination).
Proof.
  intros Hwf.
  destruct (insertEdge_cases g source destination) as [(_ & _ & ->) | ->];
    [| done].
  destruct Hwf as [Hl Hs].
  split; [by rewrite setEdgeHead_length | by rewrite setEdgeHead_size].
Qed.

Lemma removeEdge_wf g source destination :
  wf g → wf (removeEdge g source destination).
Proof.
  intros Hwf.
  destruct (removeEdge_cases g source destination) as [(_ & _ & ->) | ->];
    [| done].
  destruct Hwf as [Hl Hs].
  split; [by rewrite setEdgeHead_length | by rewrite setEdgeHead_size].
Qed.

Lemma insertEdge_edgeInv g source destination :
  edgeInv g → edgeInv (insertEdge g source destination).
Proof.
  intros Hinv.
  destruct (insertEdge_cases g source destination)
    as [(Hne & Hr & ->) | ->]; [| done].
  apply areInRange_true in Hr as [Hs Hd].
  intros v vn Hv u Hu. rewrite setEdgeHead_size.
  destruct (decide (v = source - 1)) as [-> | Hv'].
  - rewrite vertexAt_setEdgeHead_eq in Hv.
    destruct (vertexAt g (source - 1)) as [vn0 |] eqn:E0; [| done].
    injection Hv as <-. simpl in Hu.
    rewrite insertHelper_app in Hu.
    apply elem_of_app in Hu as [Hu | ->%list_elem_of_singleton].
    + by apply (Hinv _ _ E0).
    + lia.
  - rewrite vertexAt_setEdgeHead_ne in Hv by done. by apply (Hinv _ _ Hv).
Qed.

Lemma removeEdge_edgeInv g source destination :
  edgeInv g → edgeInv (removeEdge g source destination).
Proof.
  intros Hinv.
  destruct (removeEdge_cases g source destination)
    as [(Hne & Hr & ->) | ->]; [| done].
  apply areInRange_true in Hr as [Hs Hd].
  intros v vn Hv u Hu. rewrite setEdgeHead_size.
  destruct (decide (v = source - 1)) as [-> | Hv'].
  - rewrite vertexAt_setEdgeHead_eq in Hv.
    destruct (vertexAt g (source - 1)) as [vn0 |] eqn:E0; [| done].
    injection Hv as <-. simpl in Hu.
    apply removeHelper_subseteq in Hu. by apply (Hinv _ _ E0).
  - rewrite vertexAt_setEdgeHead_ne in Hv by done. by apply (Hinv _ _ Hv).
Qed.

Lemma reachable_wf g : reachable g → wf g.
Proof.
  induction 1;
    auto using loadLabels_wf, loadCount_wf, insertEdge_wf, removeEdge_wf.
Qed.

Lemma reachable_edgeInv g : reachable g → edgeInv g.
Proof.
  induction 1;
    auto using loadLabels_edgeInv, loadCount_edgeInv, insertEdge_edgeInv,
      removeEdge_edgeInv.
Qed.

Lemma edgeInv_noSelfNoOverflow g : edgeInv g → noSelfNoOverflow g.
Proof.
  intros Hinv v vn _ Hv. split.
  - intros Hin. by destruct (Hinv _ _ Hv _ Hin).
  - intros u Hin. destruct (Hinv _ _ Hv _ Hin). lia.
Qed.

(** C5.  In every state reachable from a freshly loaded graph of a valid
    size by [insertEdge] and [removeEdge], no edge chain of a vertex in
    [0, size) contains that vertex or an index [>= size]; and the state
    after one more [insertEdge] or [removeEdge], with any arguments, has the
    property again. *)
Theorem reachable_noSelfNoOverflow (g : Graph) :
  reachable g →
  noSelfNoOverflow g ∧
  (∀ source destination,
     noSelfNoOverflow (insertEdge g source destination) ∧
     noSelfNoOverflow (removeEdge g source destination)).
Proof.
  intros Hr. split; [| intros source destination; split];
    apply edgeInv_noSelfNoOverflow, reachable_edgeInv;
    [done | by constructor | by constructor].
Qed.

Lemma gTri_reachable : reachable gTri.
Proof. repeat apply reach_insert. by apply reach_load. Qed.

Lemma reachable_noSelfNoOverflow_witness :
  noSelfNoOverflow gTri ∧
  (∀ source destination,
     noSelfNoOverflow (insertEdge gTri source destination) ∧
     noSelfNoOverflow (removeEdge gTri source destination)).
Proof. apply (reachable_noSelfNoOverflow gTri), gTri_reachable. Defined.

Lemma removeEdge_spec_witness :
  vertexAt (removeEdge gTri 1 2) 0 =
    Some (mkVertexNode (Some "a"%string) [2]) ∧
  removeEdge gTri 2 1 = gTri.
Proof.
  destruct (removeEdge_spec gTri 1 2 (mkVertexNode (Some "a"%string) [2; 1]))
    as (Hp & _); [done | done | done |].
  destruct (removeEdge_spec gTri 2 1 (mkVertexNode (Some "b"%string) [2]))
    as (_ & Ha & _); [done | done | done |].
  split.
  - reflexivity.
  - apply Ha. vm_compute. by intros [? | ?%elem_of_nil]%elem_of_cons.
Defined.

(** ** Repeated insertion *)

Lemma insertEdge_appends (g : Graph) (source destination : Z)
    (vn : VertexNode) :
  source ≠ destination →
  areInRange g (source - 1) (destination - 1) = true →
  vertexAt g (source - 1) = Some vn →
  vertexAt (insertEdge g source destination) (source - 1) =
    Some (mkVertexNode (data vn) (edgeHead vn ++ [destination - 1])).
Proof.
  intros Hsd Hr Hvn. unfold insertEdge; cbv zeta. rewrite Hr.
  destruct (Z.eqb_spec (source - 1) (destination - 1)); [lia |]. simpl.
  rewrite vertexAt_setEdgeHead_eq, Hvn. simpl.
  by rewrite insertHelper_app.
Qed.

(** C2.  A graph of two vertices: after [insertEdge(1, 2)] the chain of
    vertex 0 is [[1]]; a second [insertEdge(1, 2)] makes it [[1; 1]], so the
    second call is not ignored and the graph changes. *)
Theorem insertEdge_twice_appends_again :
  vertexAt (insertEdge (loadLabels 2 []) 1 2) 0 =
    Some (mkVertexNode (Some EmptyString) [1]) ∧
  vertexAt (insertEdge (insertEdge (loadLabels 2 []) 1 2) 1 2) 0 =
    Some (mkVertexNode (Some EmptyString) [1; 1]) ∧
  insertEdge (insertEdge (loadLabels 2 []) 1 2) 1 2 ≠
    insertEdge (loadLabels 2 []) 1 2.
Proof.
  split_and!; [reflexivity | reflexivity |].
  intros Heq. apply (f_equal (λ g, vertexAt g 0)) in Heq.
  vm_compute in Heq. discriminate Heq.
Qed.

(** * Properties of the extension builder *)

Lemma isDuplicate_elem_of target Vextension :
  isDuplicate target Vextension = true ↔ target ∈ Vextension.
Proof.
  induction Vextension as [| a l IH]; simpl.
  - rewrite elem_of_nil. done.
  - rewrite elem_of_cons. destruct (Z.eqb_spec target a); [naive_solver |].
    rewrite IH. naive_solver.
Qed.

Lemma getExtensionLoop_extensionAbove v w newExtension :
  getExtensionLoop v w newExtension = extensionAbove v w newExtension.
Proof.
  unfold extensionAbove.
  revert newExtension. induction w as [| a w IH]; intros cur; simpl; [done |].
  rewrite IH, filter_cons.
  destruct (Z.ltb_spec v a) as [Hlt | Hge].
  - rewrite decide_True by done. simpl.
    destruct (isDuplicate a cur) eqn:Hd; simpl.
    + apply isDuplicate_elem_of in Hd. by rewrite decide_True.
    + rewrite decide_False; [done |].
      intros Hin%isDuplicate_elem_of. congruence.
  - rewrite decide_False by lia. done.
Qed.

Lemma appendNew_prefix cur candidates :
  ∃ added, appendNew cur candidates = cur ++ added.
Proof.
  revert cur. induction candidates as [| u rest IH]; intros cur; simpl.
  - exists []. by rewrite app_nil_r.
  - case_decide; [apply IH |].
    destruct (IH (cur ++ [u])) as [added ->].
    exists (u :: added). by rewrite <- app_assoc.
Qed.

Lemma elem_of_appendNew cur candidates u :
  u ∈ appendNew cur candidates ↔ u ∈ cur ∨ u ∈ candidates.
Proof.
  revert cur. induction candidates as [| a rest IH]; intros cur; simpl.
  - rewrite elem_of_nil. naive_solver.
  - rewrite IH, elem_of_cons. case_decide.
    + naive_solver.
    + rewrite elem_of_app, list_elem_of_singleton. naive_solver.
Qed.

Lemma NoDup_appendNew cur candidates :
  NoDup cur → NoDup (appendNew cur candidates).
Proof.
  revert cur. induction candidates as [| a rest IH]; intros cur Hnd; simpl;
    [done |].
  apply IH. case_decide; [done |].
  apply NoDup_app. split_and!; [done | | apply NoDup_singleton].
  intros x Hx ->%list_elem_of_singleton. done.
Qed.

Lemma elem_of_extensionAbove bound neighbors cur u :
  u ∈ extensionAbove bound neighbors cur ↔
  u ∈ cur ∨ (u ∈ neighbors ∧ bound < u).
Proof.
  unfold extensionAbove. rewrite elem_of_appendNew, list_elem_of_filter.
  naive_solver.
Qed.

(** * Properties of the enumeration *)

(** ** Reasoning about runs *)

Section Runs.

Context {A B : Type}.
Implicit Types (m : M A) (f : A → M B).

Lemma bind_Ret m f t a :
  m = (t, Ret a) → m ≫= f = (t ++ (f a).1, (f a).2).
Proof. by intros ->. Qed.

Lemma bind_Fault m f t : m = (t, Fault) → m ≫= f = (t, Fault).
Proof. by intros ->. Qed.

Lemma bind_trace_Forall (P : event → Prop) m f :
  Forall P m.1 → (∀ a, m.2 = Ret a → Forall P (f a).1) →
  Forall P (m ≫= f).1.
Proof.
  destruct m as [t [a | |]]; simpl; intros Ht Hf; unfold mbind, M_bind;
    simpl; [| done | done].
  apply Forall_app. split; [done | by apply Hf].
Qed.


Lemma bind_returns m f :
  (∃ a, m.2 = Ret a) → (∀ a, m.2 = Ret a → ∃ b, (f a).2 = Ret b) →
  ∃ b, (m ≫= f).2 = Ret b.
Proof.
  destruct m as [t [a | |]]; simpl; intros [a' Ht] Hf; try done.
  unfold mbind, M_bind; simpl. by apply Hf.
Qed.

Lemma bind_trace_prefix m f e : e ∈ m.1 → e ∈ (m ≫= f).1.
Proof.
  destruct m as [t [a | |]]; simpl; intros Ht; unfold mbind, M_bind;
    simpl; [| done | done].
  apply elem_of_app. by left.
Qed.

Lemma bind_trace_suffix m f e a :
  m.2 = Ret a → e ∈ (f a).1 → e ∈ (m ≫= f).1.
Proof.
  destruct m as [t [a' | |]]; simpl; intros [= ->] Ht;
    unfold mbind, M_bind; simpl.
  apply elem_of_app. by right.
Qed.

End Runs.

Lemma tell_bind {B} (e : event) (m : M B) : (tell e;; m) = (e :: m.1, m.2).
Proof. done. Qed.

Lemma callGetExtension_eq g root v Vextension :
  callGetExtension g root v Vextension =
  ([EvGetExtension root v Vextension],
   match getExtension g v Vextension with
   | Some newExtension => Ret newExtension
   | None => Fault
   end).
Proof.
  unfold callGetExtension. rewrite tell_bind.
  by destruct (getExtension g v Vextension).
Qed.

(** ** The loop calls [recur] only below [k], one vertex longer *)



Lemma enoughFor_step k Vsubgraph w fuel :
  Z.of_nat (length Vsubgraph) < to_size_t k →
  enoughFor k Vsubgraph (S fuel) → enoughFor k (Vsubgraph ++ [w]) fuel.
Proof. unfold enoughFor. rewrite length_app; simpl. lia. Qed.

Lemma enoughFor_length k s s' fuel :
  length s = length s' → enoughFor k s fuel → enoughFor k s' fuel.
Proof. unfold enoughFor. by intros ->. Qed.



(** ** What a run can contain *)

Lemma eventOK_weaken K root n e :
  Z.of_nat n ≠ K → eventOK K root (S n) e → eventOK K root n e.
Proof. destruct e; simpl; [done | lia | lia]. Qed.

Lemma extendLoop_events g recur v k Vsubgraph Vextension :
  (Z.of_nat (length Vsubgraph) < to_size_t k →
   ∀ s e, length s = S (length Vsubgraph) →
          Forall (eventOK (to_size_t k) v (length s)) (recur s e).1) →
  Forall (eventOK (to_size_t k) v (S (length Vsubgraph)))
         (extendLoop g recur v k Vsubgraph Vextension).1.
Proof.
  intros Hrec. induction Vextension as [| w rest IH]; cbn [extendLoop];
    [by constructor |].
  destruct (Z.ltb_spec (Z.of_nat (length Vsubgraph)) (to_size_t k)) as [Hlt |];
    [| by constructor].
  rewrite removelast_last.
  apply bind_trace_Forall.
  { rewrite callGetExtension_eq. by repeat constructor. }
  intros Vextension2 _. apply bind_trace_Forall; [| done].
  assert (length (Vsubgraph ++ [w]) = S (length Vsubgraph)) as Hlen
    by (rewrite length_app; simpl; lia).
  specialize (Hrec Hlt _ Vextension2 Hlen). by rewrite Hlen in Hrec.
Qed.

Lemma extendSubgraph_events fuel g Vsubgraph Vextension v k :
  Forall (eventOK (to_size_t k) v (length Vsubgraph))
         (extendSubgraph fuel g Vsubgraph Vextension v k).1.
Proof.
  revert Vsubgraph Vextension.
  induction fuel as [| fuel IH]; intros sub ext; [by constructor |].
  cbn [extendSubgraph]. rewrite tell_bind. cbn [fst].
  constructor; [simpl; auto |].
  destruct (Z.eqb_spec (Z.of_nat (length sub)) (to_size_t k)) as [Heq | Hne].
  - rewrite tell_bind. simpl. constructor; [| constructor].
    simpl. rewrite length_map. lia.
  - eapply Forall_impl.
    + apply extendLoop_events. intros _ s e _. apply IH.
    + intros e. by apply eventOK_weaken.
Qed.



(** ** Runs that stay inside the array *)

Lemma vertexAt_is_Some g v :
  is_Some (vertexAt g v) ↔ 0 ≤ v ∧ (Z.to_nat v < length (vertices g))%nat.
Proof.
  unfold vertexAt. destruct (Z.ltb_spec v 0).
  - split; [by intros [? ?] | lia].
  - rewrite lookup_lt_is_Some. lia.
Qed.

Lemma wf_edgeInv_closed g : wf g → edgeInv g → closed g.
Proof.
  intros [Hlen Hsz] Hinv v vn Hv u Hu.
  destruct (Hinv _ _ Hv _ Hu) as [Hu' _].
  apply vertexAt_is_Some. lia.
Qed.

Lemma getExtension_eq g v Vextension vn :
  vertexAt g v = Some vn →
  getExtension g v Vextension =
    Some (extensionAbove v (edgeHead vn) Vextension).
Proof.
  intros Hv. unfold getExtension. rewrite Hv.
  by rewrite getExtensionLoop_extensionAbove.
Qed.

Lemma getExtension_inArray g v Vextension :
  closed g → is_Some (vertexAt g v) → inArray g Vextension →
  ∃ newExtension, getExtension g v Vextension = Some newExtension ∧
                  inArray g newExtension.
Proof.
  intros Hcl [vn Hv] Hext. eexists. split; [by apply getExtension_eq |].
  apply Forall_forall. intros u Hu.
  apply elem_of_extensionAbove in Hu as [Hu | [Hu _]].
  - by eapply Forall_forall in Hext.
  - by apply (Hcl _ _ Hv).
Qed.

Lemma extendLoop_returns g recur v k Vsubgraph Vextension :
  closed g → inArray g Vextension →
  (Z.of_nat (length Vsubgraph) < to_size_t k →
   ∀ s e, length s = S (length Vsubgraph) → inArray g e →
          ∃ r, (recur s e).2 = Ret r) →
  ∃ r, (extendLoop g recur v k Vsubgraph Vextension).2 = Ret r.
Proof.
  intros Hcl Hext Hrec.
  induction Vextension as [| w rest IH]; cbn [extendLoop]; [by eexists |].
  destruct (Z.ltb_spec (Z.of_nat (length Vsubgraph)) (to_size_t k)) as [Hlt |];
    [| by eexists].
  apply Forall_cons in Hext as [Hw Hrest].
  destruct (getExtension_inArray g w rest Hcl Hw Hrest) as (e2 & He2 & Hin2).
  rewrite removelast_last.
  apply bind_returns.
  { rewrite callGetExtension_eq, He2. by eexists. }
  intros e2'. rewrite callGetExtension_eq, He2. intros [= <-].
  apply bind_returns; [| intros _ _; by apply IH].
  apply Hrec; [done | | done]. rewrite length_app; simpl; lia.
Qed.

Lemma extendSubgraph_returns fuel g Vsubgraph Vextension v k :
  closed g → inArray g Vextension → enoughFor k Vsubgraph fuel →
  ∃ r, (extendSubgraph fuel g Vsubgraph Vextension v k).2 = Ret r.
Proof.
  intros Hcl. revert Vsubgraph Vextension.
  induction fuel as [| fuel IH]; intros sub ext Hext Hfuel.
  { unfold enoughFor in Hfuel. lia. }
  cbn [extendSubgraph]. rewrite tell_bind. cbn [snd].
  destruct (Z.eqb_spec (Z.of_nat (length sub)) (to_size_t k)); [by eexists |].
  apply extendLoop_returns; [done | done |].
  intros Hlt s e Hs He. apply IH; [done |].
  apply (enoughFor_length k (sub ++ [0])).
  { rewrite length_app; simpl; lia. }
  by apply enoughFor_step.
Qed.

(** ** The anchor loop *)

Lemma enoughFor_singleton k i j depth :
  enoughFor k [i] depth → enoughFor k ([] ++ [j]) depth.
Proof. by apply enoughFor_length. Qed.


Lemma anchorLoop_events fuel depth g k self i :
  Forall (λ e, ∃ root, eventOK (to_size_t k) root 1 e)
         (anchorLoop fuel depth g k self i).1.
Proof.
  revert i. induction fuel as [| fuel IH]; intros i; cbn [anchorLoop];
    destruct (Z.leb_spec i (size g)) as [Hle | Hgt]; try by constructor.
  apply bind_trace_Forall.
  { rewrite callGetExtension_eq. repeat constructor. by exists i. }
  intros Vextension _. apply bind_trace_Forall; [| done].
  eapply Forall_impl; [apply extendSubgraph_events |].
  intros e He. by exists i.
Qed.


Section InsideTheArray.

Variables (g : Graph) (k : Z) (self : Z → list Z) (depth : nat).
Hypothesis Hclosed : closed g.
Hypothesis Hself : ∀ i, inArray g (self i).
Hypothesis Hdepth : enoughFor k [0] depth.

Lemma anchor_iteration_returns i :
  is_Some (vertexAt g i) →
  ∃ Vextension r,
    getExtension g i (self i) = Some Vextension ∧
    (extendSubgraph depth g ([] ++ [i]) Vextension i k).2 = Ret r.
Proof.
  intros Hi.
  destruct (getExtension_inArray g i (self i) Hclosed Hi (Hself i))
    as (Vextension & HV & Hin).
  destruct (extendSubgraph_returns depth g ([] ++ [i]) Vextension i k)
    as [r Hr]; [done | done | by eapply enoughFor_singleton |].
  by exists Vextension, r.
Qed.


(** From any counter value [i <= size], the loop arrives at the iteration
    with [i = size] and calls [getExtension(size, _)] there; if that slot
    lies outside the array, the run ends in that read. *)
Lemma anchorLoop_reaches_size fuel i :
  (∀ j, i ≤ j < size g → is_Some (vertexAt g j)) →
  i ≤ size g → anchorFuel g i fuel →
  EvGetExtension (size g) (size g) (self (size g)) ∈
    (anchorLoop fuel depth g k self i).1 ∧
  (vertexAt g (size g) = None →
   (anchorLoop fuel depth g k self i).2 = Fault).
Proof.
  revert i. induction fuel as [| fuel IH]; intros i Hin Hle Hfuel;
    cbn [anchorLoop];
    destruct (Z.leb_spec i (size g)) as [_ | Hgt]; try lia.
  { unfold anchorFuel in Hfuel. lia. }
  rewrite callGetExtension_eq.
  destruct (decide (i = size g)) as [-> | Hne].
  - split.
    + apply bind_trace_prefix. simpl. by apply list_elem_of_singleton.
    + intros Hnone. unfold getExtension. by rewrite Hnone.
  - destruct (anchor_iteration_returns i) as (Vextension & r & HV & Hr).
    { apply Hin. lia. }
    rewrite HV.
    unfold mbind at 1 3, M_bind at 1 3. cbn [fst snd].
    destruct (extendSubgraph depth g ([] ++ [i]) Vextension i k)
      as [t o]. simpl in Hr. subst o.
    unfold mbind, M_bind. cbn [fst snd].
    destruct (IH (i + 1)) as [Hev Hfault];
      [intros j Hj; apply Hin; lia | lia | unfold anchorFuel in *; lia |].
    split; [| done].
    rewrite !elem_of_app. by right; right.
Qed.

End InsideTheArray.

(** * The extension rule *)

(** C1.  On the path graph [gPath], while [enumerateSubgraph(3)] is
    anchored at root 0 it calls [getExtension(2, [])].  Vertex 2 has the
    neighbour 1, which is above the anchor 0, so the rule with the anchor as
    bound yields [[1]]; the code compares with 2 and returns the empty
    collection.  The run then prints nothing, although the three vertices
    form a connected subgraph of size 3. *)
Theorem getExtension_bound_on_path :
  EvGetExtension 0 2 [] ∈ (enumerateSubgraph 4 gPath 3 noSelf).1 ∧
  vertexAt gPath 2 = Some (mkVertexNode (Some EmptyString) [0; 1]) ∧
  extensionAbove 0 [0; 1] [] = [1] ∧
  getExtension gPath 2 [] = Some [] ∧
  getExtension gPath 2 [] ≠ Some (extensionAbove 0 [0; 1] []) ∧
  printed (enumerateSubgraph 4 gPath 3 noSelf).1 = [].
Proof.
  split_and!;
    [solve_elem_of | reflexivity | reflexivity | reflexivity | |
     reflexivity].
  vm_compute. discriminate.
Qed.

(** X19.  What every call computes: [getExtension(w, currentExtension)] on a
    vertex inside the array returns [currentExtension] plus every neighbour
    [u] of [w] with [u > w] - the bound is the first argument, which is the
    anchor only in the call made by the anchor loop - an entry already
    present not being added again and new entries appended behind the
    existing ones in neighbour-list order. *)
Lemma getExtension_bound_is_w (g : Graph) (w : Z)
    (currentExtension : list Z) (vn : VertexNode) :
  vertexAt g w = Some vn →
  getExtension g w currentExtension =
    Some (extensionAbove w (edgeHead vn) currentExtension) ∧
  (∃ added,
     extensionAbove w (edgeHead vn) currentExtension =
     currentExtension ++ added) ∧
  (∀ u, u ∈ extensionAbove w (edgeHead vn) currentExtension ↔
        u ∈ currentExtension ∨ (u ∈ edgeHead vn ∧ w < u)) ∧
  (NoDup currentExtension →
   NoDup (extensionAbove w (edgeHead vn) currentExtension)).
Proof.
  intros Hv. split_and!.
  - by apply getExtension_eq.
  - apply appendNew_prefix.
  - intros u. apply elem_of_extensionAbove.
  - apply NoDup_appendNew.
Qed.

(** In the call of the anchor loop the first argument is the root, so there
    the bound is the anchor. *)
Lemma getExtension_in_anchor_call (g : Graph) (root : Z)
    (self : Z → list Z) (vn : VertexNode) :
  vertexAt g root = Some vn →
  callGetExtension g root root (self root) =
    ([EvGetExtension root root (self root)],
     Ret (extensionAbove root (edgeHead vn) (self root))).
Proof.
  intros Hv. by rewrite callGetExtension_eq, (getExtension_eq _ _ _ _ Hv).
Qed.

(** * Slots of the array *)

Lemma wf_slots g j : wf g → 0 ≤ j < size g → is_Some (vertexAt g j).
Proof.
  unfold MAX_VERTICES. intros [Hlen Hsz] Hj. apply vertexAt_is_Some.
  unfold MAX_VERTICES in *. lia.
Qed.

Lemma wf_slot_size g :
  wf g →
  if decide (size g = MAX_VERTICES) then vertexAt g (size g) = None
  else is_Some (vertexAt g (size g)).
Proof.
  intros [Hlen Hsz]. unfold MAX_VERTICES in *. case_decide as Heq.
  - unfold vertexAt. rewrite Heq. simpl. apply lookup_ge_None. lia.
  - apply vertexAt_is_Some. lia.
Qed.

Lemma wf_slots_upto_size g j :
  wf g → size g < MAX_VERTICES → 0 ≤ j ≤ size g → is_Some (vertexAt g j).
Proof.
  intros Hwf Hlt Hj. destruct (decide (j = size g)) as [-> | Hne].
  - pose proof (wf_slot_size g Hwf) as Hslot.
    rewrite decide_False in Hslot by lia. done.
  - apply wf_slots; [done | lia].
Qed.

(** * Termination *)

Lemma to_size_t_small k : 0 ≤ k < 2 ^ 64 → to_size_t k = k.
Proof. intros Hk. unfold to_size_t. by apply Z.mod_small. Qed.




(** * The anchor loop runs one iteration too far *)

(** C10.  On every graph that satisfies the representation invariants
    (array of the declared capacity, edges inside [0, size)), with enough
    fuel for the [size + 1] anchor iterations and for depth [k], the run of
    [enumerateSubgraph] contains the call [getExtension(size, _)]: the
    anchor loop reads [vertices[size]], and [size] is not a vertex index.
    When the graph uses the whole array, that slot does not exist: the
    lookup inside [getExtension] takes its out-of-range branch and the run
    ends there. *)
Theorem enumerateSubgraph_reads_slot_size (g : Graph) (k : Z)
    (self : Z → list Z) (fuel : nat) :
  wf g → edgeInv g → (∀ i, inArray g (self i)) →
  (Z.to_nat (size g) < fuel)%nat → enoughFor k [0] fuel →
  EvGetExtension (size g) (size g) (self (size g)) ∈
    (enumerateSubgraph fuel g k self).1 ∧
  ¬ (0 ≤ size g < size g) ∧
  (size g = MAX_VERTICES →
   vertexAt g (size g) = None ∧
   getExtension g (size g) (self (size g)) = None ∧
   (enumerateSubgraph fuel g k self).2 = Fault).
Proof.
  intros Hwf Hinv Hself Hfuel Hdepth.
  pose proof (wf_edgeInv_closed g Hwf Hinv) as Hcl.
  destruct (anchorLoop_reaches_size g k self fuel Hcl Hself Hdepth fuel 0)
    as [Hev Hfault].
  { intros j Hj. apply wf_slots; [done | lia]. }
  { destruct Hwf as [_ ?]. lia. }
  { unfold anchorFuel. destruct Hwf as [_ ?]. lia. }
  split_and!; [done | lia |].
  intros Hfull. pose proof (wf_slot_size g Hwf) as Hslot.
  rewrite decide_True in Hslot by done.
  split_and!; [done | | by apply Hfault].
  unfold getExtension. by rewrite Hslot.
Qed.

Lemma enumerateSubgraph_reads_slot_size_witness :
  EvGetExtension 100 100 [] ∈
    (enumerateSubgraph 101 (loadLabels 100 []) 1 noSelf).1 ∧
  vertexAt (loadLabels 100 []) 100 = None ∧
  (enumerateSubgraph 101 (loadLabels 100 []) 1 noSelf).2 = Fault.
Proof.
  destruct (enumerateSubgraph_reads_slot_size
              (loadLabels 100 []) 1 noSelf 101) as (Hev & _ & Hfull).
  - apply loadLabels_wf. unfold MAX_VERTICES. lia.
  - apply loadLabels_edgeInv.
  - intros i. constructor.
  - simpl. lia.
  - unfold enoughFor. vm_compute. lia.
  - destruct Hfull as (Hnone & _ & Hfault); [reflexivity |].
    split_and!; [exact Hev | exact Hnone | exact Hfault].
Defined.

(** C8.  A graph of 100 vertices and [k = 1], a valid [k]: the enumeration
    does not run to completion.  It prints the hundred lines for the
    vertices, then the anchor loop enters the iteration [i = 100], reads
    [vertices[100]] outside the array, and the run ends there, whatever the
    fuel. *)
Theorem enumerateSubgraph_full_array_stops :
  size (loadLabels 100 []) = 100 ∧
  vertexAt (loadLabels 100 []) 100 = None ∧
  (enumerateSubgraph 101 (loadLabels 100 []) 1 noSelf).2 = Fault ∧
  (enumerateSubgraph 500 (loadLabels 100 []) 1 noSelf).2 = Fault ∧
  length (printed (enumerateSubgraph 101 (loadLabels 100 []) 1 noSelf).1) =
    100%nat.
Proof. split_and!; reflexivity. Qed.

(** C3.  A graph of two vertices, [k = 1]: the run has three anchor
    iterations, for the roots 0, 1 and 2.  The third root equals [size]
    and is no vertex of the graph; its iteration starts the recursion with
    [Vsubgraph = [2]] just like the others. *)
Theorem anchor_loop_roots_two_vertices :
  size (loadLabels 2 []) = 2 ∧
  enumerateSubgraph 3 (loadLabels 2 []) 1 noSelf =
    ([EvGetExtension 0 0 []; EvExtend [0] [] 0; EvPrint [1];
      EvGetExtension 1 1 []; EvExtend [1] [] 1; EvPrint [2];
      EvGetExtension 2 2 []; EvExtend [2] [] 2; EvPrint [3]],
     Ret tt).
Proof. split; reflexivity. Qed.

(** ** [k = 1] *)

Lemma extendSubgraph_k1 depth g i Vextension :
  extendSubgraph (S depth) g ([] ++ [i]) Vextension i 1 =
  ([EvExtend [i] Vextension i; EvPrint [i + 1]], Ret Vextension).
Proof. reflexivity. Qed.

Lemma anchorLoop_k1_printed fuel depth g self i :
  (∀ j, i ≤ j ≤ size g → is_Some (vertexAt g j)) →
  anchorFuel g i fuel →
  printed (anchorLoop fuel (S depth) g 1 self i).1 =
  (λ n, [i + Z.of_nat n + 1]) <$> seq 0 (Z.to_nat (size g - i + 1)).
Proof.
  revert i. induction fuel as [| fuel IH]; intros i Hin Hfuel;
    cbn [anchorLoop];
    destruct (Z.leb_spec i (size g)) as [Hle | Hgt].
  - unfold anchorFuel in Hfuel. lia.
  - replace (Z.to_nat (size g - i + 1)) with 0%nat by lia. done.
  - destruct (Hin i) as [vn Hvn]; [lia |].
    rewrite callGetExtension_eq, (getExtension_eq _ _ _ _ Hvn).
    unfold mbind at 1, M_bind at 1. cbn [fst snd].
    rewrite extendSubgraph_k1.
    unfold mbind, M_bind. cbn [fst snd].
    unfold printed in *. rewrite !omap_app. simpl.
    rewrite IH; [| intros j Hj; apply Hin; lia | unfold anchorFuel in *; lia].
    replace (Z.to_nat (size g - i + 1))
      with (S (Z.to_nat (size g - (i + 1) + 1))) by lia.
    cbn [seq fmap list_fmap]. rewrite <- fmap_S_seq, <- list_fmap_compose.
    f_equal; [f_equal; lia |].
    apply list_fmap_ext. intros _ n _. simpl. f_equal. lia.
  - replace (Z.to_nat (size g - i + 1)) with 0%nat by lia. done.
Qed.

(** X18.  For every graph that leaves a slot of the array unused,
    [enumerateSubgraph(1)] prints [size + 1] lines: 1, 2, ..., [size + 1]. *)
Lemma enumerateSubgraph_k1_printed fuel g self :
  wf g → size g < MAX_VERTICES → (Z.to_nat (size g) < fuel)%nat →
  printed (enumerateSubgraph fuel g 1 self).1 =
  (λ n, [Z.of_nat n + 1]) <$> seq 0 (Z.to_nat (size g) + 1).
Proof.
  intros Hwf Hlt Hfuel. unfold enumerateSubgraph.
  destruct fuel as [| depth]; [lia |].
  rewrite anchorLoop_k1_printed.
  - destruct Hwf as [_ ?].
    replace (Z.to_nat (size g - 0 + 1)) with (Z.to_nat (size g) + 1)%nat
      by lia.
    done.
  - intros j Hj. by apply wf_slots_upto_size.
  - unfold anchorFuel. destruct Hwf as [_ ?]. lia.
Qed.

(** C4.  A graph of two vertices: [enumerateSubgraph(1)] prints three
    lines, not two; the third shows the number 3, the singleton of index 2,
    which is not a vertex. *)
Theorem enumerateSubgraph_k1_two_vertices :
  size (loadLabels 2 []) = 2 ∧
  printed (enumerateSubgraph 3 (loadLabels 2 []) 1 noSelf).1 =
    [[1]; [2]; [3]] ∧
  (enumerateSubgraph 3 (loadLabels 2 []) 1 noSelf).2 = Ret tt.
Proof. split_and!; reflexivity. Qed.

(** * A [k] outside [1, size] *)

Lemma elem_of_printed line t : line ∈ printed t ↔ EvPrint line ∈ t.
Proof.
  unfold printed. rewrite list_elem_of_omap. split.
  - intros ([] & Hin & Heq); simplify_eq. done.
  - intros Hin. by exists (EvPrint line).
Qed.





(** * Further properties of the edge mutators *)

Lemma insertEdge_valid g source destination :
  source ≠ destination →
  areInRange g (source - 1) (destination - 1) = true →
  insertEdge g source destination =
    setEdgeHead g (source - 1)
                (λ current, insertHelper current (destination - 1)).
Proof.
  intros Hsd Hr. unfold insertEdge; cbv zeta. rewrite Hr.
  destruct (Z.eqb_spec (source - 1) (destination - 1)); [lia | done].
Qed.

Lemma removeEdge_valid g source destination :
  source ≠ destination →
  areInRange g (source - 1) (destination - 1) = true →
  removeEdge g source destination =
    setEdgeHead g (source - 1)
                (λ current, removeHelper current (destination - 1)).
Proof.
  intros Hsd Hr. unfold removeEdge; cbv zeta. rewrite Hr.
  destruct (Z.eqb_spec (source - 1) (destination - 1)); [lia | done].
Qed.

Lemma areInRange_setEdgeHead g v f a b :
  areInRange (setEdgeHead g v f) a b = areInRange g a b.
Proof. unfold areInRange. by rewrite setEdgeHead_size. Qed.

Lemma areInRange_insertEdge g source destination a b :
  areInRange (insertEdge g source destination) a b = areInRange g a b.
Proof.
  destruct (insertEdge_cases g source destination) as [(_ & _ & ->) | ->];
    [apply areInRange_setEdgeHead | done].
Qed.

Lemma wf_inRange_slot g source destination :
  wf g → areInRange g source destination = true →
  is_Some (vertexAt g source).
Proof.
  intros Hwf [Hs _]%areInRange_true. by apply wf_slots.
Qed.

Lemma graph_eq g g' :
  size g = size g' → vertices g = vertices g' → g = g'.
Proof. destruct g, g'; simpl; by intros -> ->. Qed.

Lemma setEdgeHead_same g v f vn :
  vertexAt g v = Some vn → f (edgeHead vn) = edgeHead vn →
  setEdgeHead g v f = g.
Proof.
  intros [Hv Hl]%vertexAt_Some Hf. unfold setEdgeHead.
  destruct (Z.ltb_spec v 0); [done |].
  apply graph_eq; simpl; [done |].
  apply list_eq. intros i.
  destruct (decide (i = Z.to_nat v)) as [-> | Hi].
  - rewrite list_lookup_alter_eq, Hl. simpl. rewrite Hf. by destruct vn.
  - by rewrite list_lookup_alter_ne.
Qed.

Lemma setEdgeHead_compose g v f1 f2 :
  setEdgeHead (setEdgeHead g v f1) v f2 = setEdgeHead g v (f2 ∘ f1).
Proof.
  unfold setEdgeHead. destruct (v <? 0) eqn:E; simpl; rewrite ?E; [done |].
  apply graph_eq; simpl; [done |].
  by rewrite list_alter_alter_eq.
Qed.

Lemma setEdgeHead_commute g v1 v2 f1 f2 :
  v1 ≠ v2 →
  setEdgeHead (setEdgeHead g v1 f1) v2 f2 =
  setEdgeHead (setEdgeHead g v2 f2) v1 f1.
Proof.
  intros Hne. unfold setEdgeHead.
  destruct (v1 <? 0) eqn:E1, (v2 <? 0) eqn:E2; simpl; rewrite ?E1, ?E2;
    try done.
  apply graph_eq; simpl; [done |].
  apply list_alter_alter_ne. lia.
Qed.

(** X1.  For a pair [insertEdge] accepts, the destination index is linked
    behind the last node of the source's chain, whether or not the chain
    already holds it. *)
Theorem insertEdge_links_at_end (g : Graph) (source destination : Z)
    (vn : VertexNode) :
  source ≠ destination →
  areInRange g (source - 1) (destination - 1) = true →
  vertexAt g (source - 1) = Some vn →
  vertexAt (insertEdge g source destination) (source - 1) =
    Some (mkVertexNode (data vn) (edgeHead vn ++ [destination - 1])).
Proof.
  intros Hsd Hr Hvn. rewrite insertEdge_valid by done.
  rewrite vertexAt_setEdgeHead_eq, Hvn. simpl. by rewrite insertHelper_app.
Qed.

Lemma insertEdge_links_at_end_witness :
  vertexAt (insertEdge gTri 1 2) 0 =
    Some (mkVertexNode (Some "a"%string) [2; 1; 1]).
Proof.
  apply (insertEdge_links_at_end gTri 1 2
           (mkVertexNode (Some "a"%string) [2; 1])); [lia | done | done].
Defined.

(** X2.  On a well-formed graph, [insertEdge] leaves the graph as it is
    exactly when the pair is a self-loop or has an index outside
    [1, size]; every other call changes the graph. *)
Theorem insertEdge_unchanged_iff (g : Graph) (source destination : Z) :
  wf g →
  insertEdge g source destination = g ↔
  source = destination ∨
  areInRange g (source - 1) (destination - 1) = false.
Proof.
  intros Hwf. split.
  - intros Heq.
    destruct (decide (source = destination)) as [| Hsd]; [by left |].
    right. destruct (areInRange g (source - 1) (destination - 1)) eqn:Hr;
      [| done].
    destruct (wf_inRange_slot _ _ _ Hwf Hr) as [vn Hvn].
    pose proof (insertEdge_appends g source destination vn Hsd Hr Hvn) as H.
    rewrite Heq, Hvn in H. injection H as H.
    apply (f_equal (λ v, length (edgeHead v))) in H. simpl in H.
    rewrite length_app in H. simpl in H. lia.
  - intros [-> | Hr]; unfold insertEdge; cbv zeta.
    + by rewrite Z.eqb_refl.
    + rewrite Hr. by rewrite andb_false_r.
Qed.

Lemma insertEdge_unchanged_iff_witness :
  insertEdge gTri 2 2 = gTri ∧ insertEdge gTri 4 1 = gTri.
Proof.
  pose proof (reachable_wf gTri gTri_reachable) as Hwf.
  split.
  - apply (insertEdge_unchanged_iff gTri 2 2 Hwf). by left.
  - apply (insertEdge_unchanged_iff gTri 4 1 Hwf). by right.
Defined.

(** X3.  Removing an edge right after inserting it: if the chain did not
    hold the destination, the graph is back in its former state; if it did,
    the former first occurrence is gone and the destination now stands at
    the end of the chain. *)
Theorem removeEdge_after_insertEdge (g : Graph) (source destination : Z)
    (vn : VertexNode) :
  source ≠ destination →
  areInRange g (source - 1) (destination - 1) = true →
  vertexAt g (source - 1) = Some vn →
  (destination - 1 ∉ edgeHead vn →
   removeEdge (insertEdge g source destination) source destination = g) ∧
  (∀ l1 l2, edgeHead vn = l1 ++ (destination - 1 :: l2) →
     destination - 1 ∉ l1 →
     vertexAt (removeEdge (insertEdge g source destination)
                          source destination) (source - 1) =
       Some (mkVertexNode (data vn) (l1 ++ l2 ++ [destination - 1]))).
Proof.
  intros Hsd Hr Hvn.
  rewrite removeEdge_valid; [| done | by rewrite areInRange_insertEdge].
  rewrite insertEdge_valid by done. rewrite setEdgeHead_compose.
  assert (∀ l1 l2, destination - 1 ∉ l1 →
            removeHelper (l1 ++ (destination - 1 :: l2)) (destination - 1) =
            l1 ++ l2) as Hfirst.
  { intros l1 l2. induction l1 as [| a l1 IH]; simpl.
    - intros _. by rewrite Z.eqb_refl.
    - rewrite not_elem_of_cons. intros [Hne Hn].
      destruct (Z.eqb_spec a (destination - 1)); [congruence |].
      by rewrite IH. }
  split.
  - intros Hn. apply (setEdgeHead_same _ _ _ vn Hvn). simpl.
    rewrite insertHelper_app.
    rewrite <- (app_nil_r (edgeHead vn)) at 2.
    by apply Hfirst.
  - intros l1 l2 Hchain Hn.
    rewrite vertexAt_setEdgeHead_eq, Hvn. simpl. do 2 f_equal.
    rewrite insertHelper_app, Hchain, <- app_assoc. simpl.
    by rewrite (Hfirst l1 (l2 ++ [destination - 1])).
Qed.

Lemma removeEdge_after_insertEdge_witness :
  removeEdge (insertEdge gTri 2 1) 2 1 = gTri.
Proof.
  destruct (removeEdge_after_insertEdge gTri 2 1
              (mkVertexNode (Some "b"%string) [2])) as [Hback _];
    [lia | done | done |].
  apply Hback. simpl. intros Hin%list_elem_of_singleton. lia.
Defined.

Lemma elem_of_removeHelper_ne current destination u :
  u ≠ destination →
  u ∈ removeHelper current destination ↔ u ∈ current.
Proof.
  intros Hne. induction current as [| a l IH]; simpl; [done |].
  destruct (Z.eqb_spec a destination) as [-> | Ha].
  - rewrite elem_of_cons. naive_solver.
  - rewrite !elem_of_cons, IH. done.
Qed.

Lemma NoDup_removeHelper current destination :
  NoDup current →
  NoDup (removeHelper current destination) ∧
  destination ∉ removeHelper current destination.
Proof.
  induction current as [| a l IH]; simpl.
  - intros _. split; [constructor | apply not_elem_of_nil].
  - intros [Ha Hl]%NoDup_cons.
    destruct (Z.eqb_spec a destination) as [-> | Hne]; [done |].
    destruct (IH Hl) as [Hnd Hn]. split.
    + apply NoDup_cons. split; [| done].
      intros Hin. by apply removeHelper_subseteq in Hin.
    + rewrite not_elem_of_cons. split; [congruence | done].
Qed.

(** X4.  For a pair [removeEdge] accepts, every index other than the
    destination is in the chain afterwards exactly if it was before; and if
    the chain held no index twice, it still holds none twice and the
    destination is no longer in it. *)
Theorem removeEdge_membership (g : Graph) (source destination : Z)
    (vn : VertexNode) :
  source ≠ destination →
  areInRange g (source - 1) (destination - 1) = true →
  vertexAt g (source - 1) = Some vn →
  ∃ chain,
    vertexAt (removeEdge g source destination) (source - 1) =
      Some (mkVertexNode (data vn) chain) ∧
    (∀ u, u ≠ destination - 1 → u ∈ chain ↔ u ∈ edgeHead vn) ∧
    (NoDup (edgeHead vn) → NoDup chain ∧ destination - 1 ∉ chain).
Proof.
  intros Hsd Hr Hvn. eexists. split_and!.
  - rewrite removeEdge_valid by done.
    by rewrite vertexAt_setEdgeHead_eq, Hvn.
  - intros u Hu. by apply elem_of_removeHelper_ne.
  - apply NoDup_removeHelper.
Qed.

Lemma removeEdge_membership_witness :
  ∃ chain,
    vertexAt (removeEdge gTri 1 3) (1 - 1) =
      Some (mkVertexNode (Some "a"%string) chain) ∧
    (NoDup [2; 1] → NoDup chain ∧ 3 - 1 ∉ chain).
Proof.
  destruct (removeEdge_membership gTri 1 3
              (mkVertexNode (Some "a"%string) [2; 1]))
    as (chain & Hchain & _ & Hnd); [lia | done | done |].
  exists chain. split; [exact Hchain | exact Hnd].
Defined.

Lemma insertEdge_unfold g source destination :
  insertEdge g source destination =
  if negb (source - 1 =? destination - 1) &&
     areInRange g (source - 1) (destination - 1)
  then setEdgeHead g (source - 1)
         (λ current, insertHelper current (destination - 1))
  else g.
Proof. done. Qed.

(** X5.  Insertions with different sources commute: the two orders give
    the same graph. *)
Theorem insertEdge_commute (g : Graph) (a b c d : Z) :
  a ≠ c →
  insertEdge (insertEdge g a b) c d = insertEdge (insertEdge g c d) a b.
Proof.
  intros Hac.
  rewrite (insertEdge_unfold (insertEdge g a b) c d).
  rewrite (insertEdge_unfold (insertEdge g c d) a b).
  rewrite !areInRange_insertEdge.
  rewrite (insertEdge_unfold g a b), (insertEdge_unfold g c d).
  destruct (negb (a - 1 =? b - 1) && areInRange g (a - 1) (b - 1));
    destruct (negb (c - 1 =? d - 1) && areInRange g (c - 1) (d - 1));
    try done.
  apply setEdgeHead_commute. lia.
Qed.

Lemma insertEdge_commute_witness :
  insertEdge (insertEdge gTri 1 2) 3 1 = insertEdge (insertEdge gTri 3 1) 1 2.
Proof. apply (insertEdge_commute gTri 1 2 3 1). lia. Defined.

(** * Copy construction *)

Lemma copyAllEdge_nil otherEdge : copyAllEdge [] otherEdge = otherEdge.
Proof. induction otherEdge as [| a l IH]; simpl; [done | by rewrite IH]. Qed.

Lemma loadLabels_slots n labels :
  unusedInv (loadLabels n labels) ∧ labelled (loadLabels n labels).
Proof.
  split; intros v vn [Hv Hl]%vertexAt_Some;
    unfold loadLabels, newGraph in Hl; cbn [vertices] in Hl;
    rewrite list_lookup_imap in Hl;
    (destruct (replicate _ _ !! _) as [d |] eqn:Hd; [| done]);
    apply lookup_replicate in Hd as [-> _]; simpl in Hl;
    injection Hl as <-;
    change (size (loadLabels n labels)) with n;
    case_decide; intros; simpl; first [lia | done | by eexists].
Qed.

Lemma setEdgeHead_unusedInv g v f :
  0 ≤ v < size g → unusedInv g → unusedInv (setEdgeHead g v f).
Proof.
  intros Hv Hinv u vn Hu. rewrite setEdgeHead_size. intros Hge.
  rewrite vertexAt_setEdgeHead_ne in Hu by lia. exact (Hinv _ _ Hu Hge).
Qed.

Lemma setEdgeHead_labelled g v f :
  labelled g → labelled (setEdgeHead g v f).
Proof.
  intros Hinv u vn Hu. rewrite setEdgeHead_size. intros Hlt.
  pose proof (vertexAt_setEdgeHead_data g v f u) as Hd.
  rewrite Hu in Hd. simpl in Hd.
  destruct (vertexAt g u) as [vn0 |] eqn:E0; [| done].
  injection Hd as Hd. rewrite Hd. by apply (Hinv _ _ E0).
Qed.

Lemma insertEdge_labelled g source destination :
  labelled g → labelled (insertEdge g source destination).
Proof.
  intros Hg.
  destruct (insertEdge_cases g source destination) as [(_ & _ & ->) | ->];
    [by apply setEdgeHead_labelled | done].
Qed.

Lemma removeEdge_labelled g source destination :
  labelled g → labelled (removeEdge g source destination).
Proof.
  intros Hg.
  destruct (removeEdge_cases g source destination) as [(_ & _ & ->) | ->];
    [by apply setEdgeHead_labelled | done].
Qed.

Lemma gTri_labelled : labelled gTri.
Proof. repeat apply insertEdge_labelled. apply loadLabels_slots. Qed.

Lemma reachable_unusedInv g : reachable g → unusedInv g.
Proof.
  induction 1 as [n labels Hn | n Hn | g s d Hg IH | g s d Hg IH].
  - apply loadLabels_slots.
  - intros v vn Hv _. by apply (loadCount_edgeHead n v).
  - destruct (insertEdge_cases g s d) as [(_ & Hr & ->) | ->]; [| done].
    apply areInRange_true in Hr as [Hs _]. by apply setEdgeHead_unusedInv.
  - destruct (removeEdge_cases g s d) as [(_ & Hr & ->) | ->]; [| done].
    apply areInRange_true in Hr as [Hs _]. by apply setEdgeHead_unusedInv.
Qed.

Lemma copy_hits_null (os : list VertexNode) (this : Graph) (n i : nat) o :
  (i < n)%nat → os !! i = Some o → data o = None →
  foldl (λ acc j, acc ≫= λ g, copyVertex os g j)
        (Some this) (Z.of_nat <$> seq 0 n) = None.
Proof.
  intros Hi Ho Hd. induction n as [| n IH]; [lia |].
  rewrite seq_S, fmap_app, foldl_app. simpl.
  destruct (decide (i = n)) as [-> | Hne].
  - destruct (foldl _ _ _) as [g |]; [| done]. simpl.
    unfold copyVertex. rewrite Nat2Z.id, Ho. simpl. by rewrite Hd.
  - rewrite IH by lia. done.
Qed.

Lemma copy_prefix sz (os vs : list VertexNode) (n : nat) :
  (n ≤ length os)%nat → (n ≤ length vs)%nat →
  (∀ i o, (i < n)%nat → os !! i = Some o → is_Some (data o)) →
  (∀ i v, (i < n)%nat → vs !! i = Some v → edgeHead v = []) →
  foldl (λ acc i, acc ≫= λ g, copyVertex os g i)
        (Some (mkGraph sz vs)) (Z.of_nat <$> seq 0 n) =
  Some (mkGraph sz (take n os ++ drop n vs)).
Proof.
  intros Hos Hvs. induction n as [| n IH]; intros Hdata Hedge.
  { simpl. by rewrite drop_0. }
  rewrite seq_S, fmap_app, foldl_app, IH; [| lia | lia | | ]; cycle 1.
  { intros i o Hi. apply Hdata. lia. }
  { intros i v Hi. apply Hedge. lia. }
  simpl. unfold copyVertex. simpl. rewrite Nat2Z.id.
  destruct (lookup_lt_is_Some_2 os n) as [o Ho]; [lia |].
  destruct (lookup_lt_is_Some_2 vs n) as [v Hv]; [lia |].
  destruct (Hdata n o) as [d Hd]; [lia | done |].
  rewrite Ho. simpl. rewrite Hd. simpl.
  assert (length (take n os) = n) as Hlen by (rewrite length_take; lia).
  rewrite lookup_app_r by lia. rewrite Hlen, Nat.sub_diag, lookup_drop.
  rewrite Nat.add_0_r, Hv. simpl.
  rewrite (Hedge n v) by (done || lia). rewrite copyAllEdge_nil.
  do 2 f_equal.
  rewrite insert_app_r_alt by lia. rewrite Hlen, Nat.sub_diag.
  rewrite (drop_S vs v n Hv). simpl.
  rewrite (take_S_r os n o Ho), <- app_assoc. simpl.
  do 2 f_equal. destruct o; simpl in *. by subst.
Qed.

(** X6.  Copy-constructing from a graph in a reachable state: if every
    slot below [size] carries a label, the copy succeeds and equals the
    original in size, labels and chains; if a slot below [size] has a
    [NULL] label - as after the early return of [buildGraph] - the
    constructor dereferences it and there is no copy. *)
Theorem copyGraph_reachable (g : Graph) :
  reachable g →
  (labelled g → copyGraph g = Some g) ∧
  (∀ v vn, 0 ≤ v < size g → vertexAt g v = Some vn → data vn = None →
           copyGraph g = None).
Proof.
  intros Hreach. split.
  - intros Hlab.
    pose proof (reachable_wf g Hreach) as [Hlen Hsz].
    pose proof (reachable_unusedInv g Hreach) as Hunused.
    assert (vertices newGraph = replicate 100 defaultVertex) as Hnew
      by reflexivity.
    assert (∀ i o, vertices g !! i = Some o →
                   vertexAt g (Z.of_nat i) = Some o) as Hat.
    { intros i o Ho. unfold vertexAt.
      destruct (Z.ltb_spec (Z.of_nat i) 0); [lia |]. by rewrite Nat2Z.id. }
    unfold MAX_VERTICES in *.
    unfold copyGraph, copyAllVertices, indices. cbn [size vertices].
    rewrite Hnew, copy_prefix.
    + f_equal. apply graph_eq; cbn [size vertices]; [done |].
      transitivity (take (Z.to_nat (size g)) (vertices g) ++
                    drop (Z.to_nat (size g)) (vertices g));
        [| apply take_drop].
      f_equal. apply list_eq. intros i. rewrite !lookup_drop.
      destruct (decide (Z.to_nat (size g) + i < 100)%nat) as [Hi | Hi].
      * rewrite lookup_replicate_2 by lia.
        destruct (lookup_lt_is_Some_2 (vertices g) (Z.to_nat (size g) + i))
          as [vn Hvn]; [lia |].
        rewrite Hvn. f_equal. symmetry.
        apply (Hunused _ vn (Hat _ _ Hvn)). lia.
      * rewrite (proj2 (lookup_ge_None _ _))
          by (rewrite length_replicate; lia).
        symmetry. apply lookup_ge_None. lia.
    + lia.
    + rewrite length_replicate. lia.
    + intros i o Hi Ho. apply (Hlab _ o (Hat _ _ Ho)). lia.
    + intros i v Hi Hv. by apply lookup_replicate in Hv as [-> _].
  - intros v vn Hv [_ Hvn]%vertexAt_Some Hnull.
    unfold copyGraph, copyAllVertices, indices. cbn [size].
    apply (copy_hits_null _ _ _ (Z.to_nat v) vn); [lia | done | done].
Qed.

Lemma copyGraph_reachable_witness :
  copyGraph gTri = Some gTri ∧ copyGraph (loadCount 3) = None.
Proof.
  split.
  - apply (copyGraph_reachable gTri gTri_reachable), gTri_labelled.
  - assert (reachable (loadCount 3)) as Hr
      by (apply reach_count; unfold MAX_VERTICES; lia).
    apply (proj2 (copyGraph_reachable (loadCount 3) Hr) 0 defaultVertex);
      [simpl; lia | reflexivity | reflexivity].
Defined.

(** * Reading edge records *)

Lemma buildEdges_reachable_from g records :
  reachable g → reachable (buildEdges g records).
Proof.
  revert g. induction records as [| [src dest] rest IH]; intros g Hg;
    simpl; [done |].
  destruct (src =? 0); [done |]. apply IH. by constructor.
Qed.

(** X7.  The edge loop of [buildGraph], started in a reachable state,
    ends in a reachable state, so the edge invariant holds for every graph it
    builds, whatever the records are; and a record whose source is 0 ends
    the loop: nothing behind it is read. *)
Theorem buildEdges_safe_and_stops (g : Graph) (records : list (Z * Z)) :
  reachable g →
  reachable (buildEdges g records) ∧
  noSelfNoOverflow (buildEdges g records) ∧
  (∀ before dest after, records = before ++ ((0, dest) :: after) →
     buildEdges g records = buildEdges g before).
Proof.
  intros Hg. split_and!.
  - by apply buildEdges_reachable_from.
  - apply edgeInv_noSelfNoOverflow, reachable_edgeInv.
    by apply buildEdges_reachable_from.
  - intros before dest after ->. clear Hg. revert g.
    induction before as [| [s d] before IH]; intros g; simpl; [done |].
    destruct (s =? 0); [done | apply IH].
Qed.

Lemma buildEdges_safe_and_stops_witness :
  buildEdges (loadLabels 3 []) [(1, 3); (0, 0); (2, 3)] =
  buildEdges (loadLabels 3 []) [(1, 3)].
Proof.
  destruct (buildEdges_safe_and_stops (loadLabels 3 [])
              [(1, 3); (0, 0); (2, 3)]) as (_ & _ & Hstop).
  - apply reach_load. unfold MAX_VERTICES. lia.
  - apply (Hstop [(1, 3)] 0 [(2, 3)]). reflexivity.
Defined.

(** * Display *)

(** X8.  [display] writes its error message exactly when one of the two
    numbers is outside [1, size]; otherwise it writes the two numbers, also
    for a self-loop.  What it writes does not depend on the edges: it is the
    same after any [insertEdge] or [removeEdge]. *)
Theorem display_checks_range_only (g : Graph) (source destination : Z) :
  (display g source destination = displayError ↔
   ¬ (1 ≤ source ≤ size g ∧ 1 ≤ destination ≤ size g)) ∧
  (1 ≤ source ≤ size g ∧ 1 ≤ destination ≤ size g →
   display g source destination =
     [ShowInt source; ShowStr (tabs 1); ShowInt destination;
      ShowStr (tabs 1)]) ∧
  (∀ a b,
     display (insertEdge g a b) source destination =
       display g source destination ∧
     display (removeEdge g a b) source destination =
       display g source destination).
Proof.
  unfold display, displayError; cbv zeta.
  split_and!.
  - destruct (areInRange g (source - 1) (destination - 1)) eqn:Hr; simpl.
    + apply areInRange_true in Hr. split; [done | lia].
    + split; [| done]. intros _ Hin.
      assert (areInRange g (source - 1) (destination - 1) = true)
        by (apply areInRange_true; lia).
      congruence.
  - intros Hin.
    assert (areInRange g (source - 1) (destination - 1) = true) as ->
      by (apply areInRange_true; lia).
    done.
  - intros a b. split.
    + by rewrite areInRange_insertEdge.
    + destruct (removeEdge_cases g a b) as [(_ & _ & ->) | ->]; [| done].
      by rewrite areInRange_setEdgeHead.
Qed.

Lemma diplayAllHelper_setEdgeHead g v f source :
  diplayAllHelper (setEdgeHead g v f) source = diplayAllHelper g source.
Proof.
  unfold diplayAllHelper. rewrite setEdgeHead_size.
  destruct (decide (source = v)) as [-> | Hne].
  - rewrite vertexAt_setEdgeHead_eq. by destruct (vertexAt g v).
  - by rewrite vertexAt_setEdgeHead_ne.
Qed.

Lemma displayAll_setEdgeHead g v f :
  displayAll (setEdgeHead g v f) = displayAll g.
Proof.
  unfold displayAll. rewrite setEdgeHead_size.
  erewrite mapM_ext; [done |].
  intros source. apply diplayAllHelper_setEdgeHead.
Qed.

(** X9.  [displayAll] never reads an edge chain: its output is the same
    after any [insertEdge] or [removeEdge]. *)
Theorem displayAll_ignores_edges (g : Graph) (a b : Z) :
  displayAll (insertEdge g a b) = displayAll g ∧
  displayAll (removeEdge g a b) = displayAll g.
Proof.
  split.
  - destruct (insertEdge_cases g a b) as [(_ & _ & ->) | ->]; [| done].
    apply displayAll_setEdgeHead.
  - destruct (removeEdge_cases g a b) as [(_ & _ & ->) | ->]; [| done].
    apply displayAll_setEdgeHead.
Qed.

Lemma elem_of_indices n i : i ∈ indices n ↔ 0 ≤ i < n.
Proof.
  unfold indices. rewrite list_elem_of_fmap. split.
  - intros (j & -> & Hj%elem_of_seq). lia.
  - intros Hi. exists (Z.to_nat i). split; [lia |].
    apply elem_of_seq. lia.
Qed.

(** X10.  On a graph in a reachable state: if every slot below [size]
    carries a label, [displayAll] runs through (every slot it reads is inside
    the array, every label it dereferences is there); if a slot below [size]
    has a [NULL] label - as after the early return of [buildGraph] -
    [displayAll] dereferences it and produces no complete output. *)
Theorem displayAll_reachable (g : Graph) :
  reachable g →
  (labelled g → is_Some (displayAll g)) ∧
  (∀ v vn, 0 ≤ v < size g → vertexAt g v = Some vn → data vn = None →
           displayAll g = None).
Proof.
  intros Hreach. split.
  - intros Hlab.
    pose proof (reachable_wf g Hreach) as Hwf.
    unfold displayAll.
    assert (is_Some (mapM (diplayAllHelper g) (indices (size g))))
      as [rows ->]; [| by eexists].
    apply mapM_is_Some, Forall_forall. intros i Hi%elem_of_indices. simpl.
    destruct (wf_slots g i Hwf Hi) as [vn Hvn].
    destruct (Hlab i vn Hvn) as [d Hd]; [lia |].
    unfold diplayAllHelper. rewrite Hvn. simpl. rewrite Hd. by eexists.
  - intros v vn Hv Hvn Hnull. unfold displayAll.
    destruct (mapM (diplayAllHelper g) (indices (size g))) as [rows |] eqn:E;
      [| done].
    assert (is_Some (mapM (diplayAllHelper g) (indices (size g)))) as Hsome
      by (rewrite E; by eexists).
    apply mapM_is_Some_1 in Hsome. rewrite Forall_forall in Hsome.
    destruct (Hsome v) as [out Hout]; [by apply elem_of_indices |].
    simpl in Hout. unfold diplayAllHelper in Hout.
    rewrite Hvn in Hout. simpl in Hout. rewrite Hnull in Hout. done.
Qed.

Lemma displayAll_reachable_witness :
  is_Some (displayAll gTri) ∧ displayAll (loadCount 3) = None.
Proof.
  split.
  - apply (displayAll_reachable gTri gTri_reachable), gTri_labelled.
  - assert (reachable (loadCount 3)) as Hr
      by (apply reach_count; unfold MAX_VERTICES; lia).
    apply (proj2 (displayAll_reachable (loadCount 3) Hr) 0 defaultVertex);
      [simpl; lia | reflexivity | reflexivity].
Defined.

(** * Further properties of the extension builder *)

Lemma appendNew_absorb cur candidates :
  (∀ u, u ∈ candidates → u ∈ cur) → appendNew cur candidates = cur.
Proof.
  induction candidates as [| a rest IH]; simpl; [done |].
  intros Hall. rewrite decide_True by (apply Hall; by left).
  apply IH. intros u Hu. apply Hall. by right.
Qed.

(** X11.  [isDuplicate] answers membership: it returns true exactly when
    the target occurs in the collection. *)
Theorem isDuplicate_iff_member (target : Z) (Vextension : list Z) :
  (isDuplicate target Vextension = true ↔ target ∈ Vextension) ∧
  (isDuplicate target Vextension = false ↔ target ∉ Vextension).
Proof.
  split; [apply isDuplicate_elem_of |].
  rewrite <- isDuplicate_elem_of.
  destruct (isDuplicate target Vextension); naive_solver.
Qed.

(** X12.  [getExtension] is idempotent in its collection argument: calling
    it again for the same vertex on its own result adds nothing. *)
Theorem getExtension_idempotent (g : Graph) (v : Z)
    (Vextension newExtension : list Z) :
  getExtension g v Vextension = Some newExtension →
  getExtension g v newExtension = Some newExtension.
Proof.
  unfold getExtension.
  destruct (vertexAt g v) as [vn |]; [| done].
  intros [= <-]. f_equal.
  rewrite !getExtensionLoop_extensionAbove.
  unfold extensionAbove at 1. apply appendNew_absorb.
  intros u Hu. apply elem_of_extensionAbove. right.
  by apply list_elem_of_filter in Hu as [? ?].
Qed.

Lemma getExtension_idempotent_witness :
  getExtension gTri 0 [2; 1] = Some [2; 1].
Proof. apply (getExtension_idempotent gTri 0 [] [2; 1]). reflexivity. Defined.

Lemma getExtension_bound_is_w_witness :
  getExtension gTri 0 [2] = Some [2; 1].
Proof.
  destruct (getExtension_bound_is_w gTri 0 [2]
              (mkVertexNode (Some "a"%string) [2; 1])) as [H _];
    [reflexivity | exact H].
Defined.

(** * Invariants of the search *)

Section TraceInvariant.

Variables (g : Graph) (k : Z) (I : Z → list Z → list Z → Prop).

Hypothesis I_pop : ∀ r s w rest, I r s (w :: rest) → I r s rest.
Hypothesis I_push : ∀ r s w rest x2,
  I r s (w :: rest) → getExtension g w rest = Some x2 → I r (s ++ [w]) x2.

Lemma callGetExtension_Ret root v x x2 :
  (callGetExtension g root v x).2 = Ret x2 → getExtension g v x = Some x2.
Proof.
  rewrite callGetExtension_eq. simpl.
  destruct (getExtension g v x); [by intros [= ->] | done].
Qed.

Lemma extendLoop_inv recur v s x :
  I v s x →
  (∀ s' x', I v s' x' → Forall (eventInv I) (recur s' x').1) →
  Forall (eventInv I) (extendLoop g recur v k s x).1.
Proof.
  intros HI Hrec. induction x as [| w rest IH]; cbn [extendLoop];
    [by constructor |].
  destruct (Z.ltb_spec (Z.of_nat (length s)) (to_size_t k)) as [Hlt |];
    [| by constructor].
  rewrite removelast_last.
  apply bind_trace_Forall.
  { rewrite callGetExtension_eq. by repeat constructor. }
  intros x2 Hx2%callGetExtension_Ret.
  apply bind_trace_Forall.
  - apply Hrec. by eapply I_push.
  - intros _ _. apply IH. by eapply I_pop.
Qed.

Lemma extendSubgraph_inv fuel s x v :
  I v s x → Forall (eventInv I) (extendSubgraph fuel g s x v k).1.
Proof.
  revert s x. induction fuel as [| fuel IH]; intros s x HI;
    [by constructor |].
  cbn [extendSubgraph]. rewrite tell_bind. cbn [fst].
  constructor; [done |].
  destruct (Z.eqb_spec (Z.of_nat (length s)) (to_size_t k)).
  - rewrite tell_bind. simpl. constructor; [| constructor].
    simpl. by exists v, s, x.
  - apply extendLoop_inv; [done |]. intros s' x' HI'. by apply IH.
Qed.

Lemma anchorLoop_inv fuel depth self i0 :
  (∀ i x, i0 ≤ i ≤ size g → getExtension g i (self i) = Some x →
          I i [i] x) →
  Forall (eventInv I) (anchorLoop fuel depth g k self i0).1.
Proof.
  revert i0. induction fuel as [| fuel IH]; intros i0 Hinit;
    cbn [anchorLoop];
    destruct (Z.leb_spec i0 (size g)) as [Hle | Hgt]; try by constructor.
  apply bind_trace_Forall.
  { rewrite callGetExtension_eq. by repeat constructor. }
  intros x Hx%callGetExtension_Ret.
  apply bind_trace_Forall.
  - apply extendSubgraph_inv. apply Hinit; [lia | done].
  - intros _ _. apply IH. intros i x' Hi. apply Hinit. lia.
Qed.

End TraceInvariant.

Lemma getExtension_Some_inv g v x x2 :
  getExtension g v x = Some x2 →
  ∃ vn, vertexAt g v = Some vn ∧ x2 = extensionAbove v (edgeHead vn) x.
Proof.
  unfold getExtension. destruct (vertexAt g v) as [vn |]; [| done].
  intros [= <-]. exists vn. by rewrite getExtensionLoop_extensionAbove.
Qed.

Lemma printed_inv I t line :
  Forall (eventInv I) t → line ∈ printed t →
  ∃ r s x, I r s x ∧ line = map (λ v, v + 1) s.
Proof.
  intros Hall Hin%elem_of_printed.
  rewrite Forall_forall in Hall. exact (Hall _ Hin).
Qed.

(** X13.  Whatever the graph and the run, every line [enumerateSubgraph(k)]
    prints has exactly [k] numbers (for [k] that fits [size_t]). *)
Theorem printed_lines_have_k_entries (g : Graph) (k : Z)
    (self : Z → list Z) (fuel : nat) (line : list Z) :
  0 ≤ k < 2 ^ 64 →
  line ∈ printed (enumerateSubgraph fuel g k self).1 →
  Z.of_nat (length line) = k.
Proof.
  intros Hk Hin%elem_of_printed.
  pose proof (anchorLoop_events fuel fuel g k self 0) as Hev.
  rewrite Forall_forall in Hev. destruct (Hev _ Hin) as [r [Hlen _]].
  by rewrite to_size_t_small in Hlen.
Qed.

Lemma printed_lines_have_k_entries_witness :
  Z.of_nat (length [1; 3; 2]) = 3.
Proof.
  apply (printed_lines_have_k_entries gTri 3 noSelf 4 [1; 3; 2]); [lia |].
  solve_elem_of.
Defined.

Lemma aboveRoot_push g r s w rest x2 :
  edgeInv g →
  aboveRoot g r s (w :: rest) → getExtension g w rest = Some x2 →
  aboveRoot g r (s ++ [w]) x2.
Proof.
  intros Hinv (t & -> & Hr & Ht & Hx) (vn & Hvn & ->)%getExtension_Some_inv.
  apply Forall_cons in Hx as [Hw Hrest].
  exists (t ++ [w]). split; [done |]. split; [done |]. split.
  - apply Forall_app. split; [done | by constructor].
  - apply Forall_forall. intros u [Hu | [Hu Hwu]]%elem_of_extensionAbove.
    + by eapply Forall_forall in Hrest.
    + destruct (Hinv _ _ Hvn _ Hu). lia.
Qed.

Lemma aboveRoot_pop g r s w rest :
  aboveRoot g r s (w :: rest) → aboveRoot g r s rest.
Proof.
  intros (t & -> & Hr & Ht & Hx). exists t.
  split; [done |]. split; [done |]. split; [done |].
  by apply Forall_cons in Hx as [_ ?].
Qed.

Lemma aboveRoot_init g self i x :
  edgeInv g → (∀ u, u ∈ self i → i < u < size g) →
  0 ≤ i ≤ size g → getExtension g i (self i) = Some x →
  aboveRoot g i [i] x.
Proof.
  intros Hinv Hself Hi (vn & Hvn & ->)%getExtension_Some_inv.
  exists []. split; [done |]. split; [done |]. split; [constructor |].
  apply Forall_forall. intros u [Hu | [Hu Hiu]]%elem_of_extensionAbove.
  - by apply Hself.
  - destruct (Hinv _ _ Hvn _ Hu). lia.
Qed.

(** X14.  On a graph that satisfies the edge invariant, with the
    self-initialised collection empty (or holding only vertices above the
    root), every printed line starts with the number of its root, which is
    between 1 and [size + 1], and all its other numbers are larger than that
    and at most [size]: the root is the strict minimum of every subgraph
    printed. *)
Theorem printed_lines_root_is_minimum (g : Graph) (k : Z)
    (self : Z → list Z) (fuel : nat) (line : list Z) :
  edgeInv g →
  (∀ i u, u ∈ self i → i < u < size g) →
  line ∈ printed (enumerateSubgraph fuel g k self).1 →
  ∃ r t, line = (r + 1) :: t ∧ 0 ≤ r ≤ size g ∧
         Forall (λ n, r + 1 < n ≤ size g) t.
Proof.
  intros Hinv Hself Hin.
  assert (Forall (eventInv (aboveRoot g))
            (enumerateSubgraph fuel g k self).1) as Hall.
  { apply anchorLoop_inv.
    - apply aboveRoot_pop.
    - intros r s w rest x2. by apply aboveRoot_push.
    - intros i x Hi Hx. apply (aboveRoot_init g self); auto. }
  destruct (printed_inv _ _ _ Hall Hin)
    as (r & s & x & (t & -> & Hr & Ht & _) & ->).
  exists r, (map (λ v, v + 1) t). split; [done |]. split; [done |].
  apply Forall_forall. intros n Hn. apply list_elem_of_In in Hn.
  apply in_map_iff in Hn as (u & <- & Hu%list_elem_of_In).
  eapply Forall_forall in Ht; [| done]. simpl in Ht. lia.
Qed.

Lemma printed_lines_root_is_minimum_witness :
  ∃ r t, [1; 3; 2] = (r + 1) :: t ∧ 0 ≤ r ≤ size gTri ∧
         Forall (λ n, r + 1 < n ≤ size gTri) t.
Proof.
  apply (printed_lines_root_is_minimum gTri 3 noSelf 4 [1; 3; 2]).
  - apply reachable_edgeInv, gTri_reachable.
  - intros i u Hu. by apply elem_of_nil in Hu.
  - solve_elem_of.
Defined.

Lemma grownInv_push g r s w rest x2 :
  grownInv g r s (w :: rest) → getExtension g w rest = Some x2 →
  grownInv g r (s ++ [w]) x2.
Proof.
  intros [Hs Hx] (vn & Hvn & ->)%getExtension_Some_inv. split.
  - destruct (Hx w) as (v & Hv & Hadj); [by left |].
    by apply (grown_snoc g r s v w).
  - intros u [Hu | [Hu _]]%elem_of_extensionAbove.
    + destruct (Hx u) as (v & Hv & Hadj); [by right |].
      exists v. split; [| done]. apply elem_of_app. by left.
    + exists w. split; [apply elem_of_app; right; by left |].
      by exists vn.
Qed.

(** X15.  With the self-initialised collection empty, every printed line
    shows a sequence grown along stored edges: each vertex after the first is
    stored in the chain of a vertex that stands before it in the line. *)
Theorem printed_lines_are_grown (g : Graph) (k : Z)
    (self : Z → list Z) (fuel : nat) (line : list Z) :
  (∀ i, self i = []) →
  line ∈ printed (enumerateSubgraph fuel g k self).1 →
  ∃ r s, line = map (λ v, v + 1) s ∧ grown g r s.
Proof.
  intros Hself Hin.
  assert (Forall (eventInv (grownInv g))
            (enumerateSubgraph fuel g k self).1) as Hall.
  { apply anchorLoop_inv.
    - intros r s w rest [Hs Hx]. split; [done |].
      intros u Hu. apply Hx. by right.
    - intros r s w rest x2. apply grownInv_push.
    - intros i x _ (vn & Hvn & ->)%getExtension_Some_inv. split.
      + constructor.
      + rewrite Hself.
        intros u [Hu | [Hu _]]%elem_of_extensionAbove.
        * by apply elem_of_nil in Hu.
        * exists i. split; [by left | by exists vn]. }
  destruct (printed_inv _ _ _ Hall Hin) as (r & s & x & [Hs _] & ->).
  by exists r, s.
Qed.

Lemma printed_lines_are_grown_witness :
  ∃ r s, [1; 3; 2] = map (λ v, v + 1) s ∧ grown gTri r s.
Proof.
  apply (printed_lines_are_grown gTri 3 noSelf 4 [1; 3; 2]);
    [done | solve_elem_of].
Defined.

(** X16.  If the self-initialised collection has no vertex twice, then no
    extension collection handed to [extendSubgraph] in the run has a vertex
    twice. *)
Theorem extensions_have_no_duplicates (g : Graph) (k : Z)
    (self : Z → list Z) (fuel : nat) (s x : list Z) (root : Z) :
  (∀ i, NoDup (self i)) →
  EvExtend s x root ∈ (enumerateSubgraph fuel g k self).1 →
  NoDup x.
Proof.
  intros Hself Hin.
  assert (Forall (eventInv noDupInv)
            (enumerateSubgraph fuel g k self).1) as Hall.
  { apply anchorLoop_inv; unfold noDupInv.
    - intros r s' w rest Hnd. by apply NoDup_cons in Hnd as [_ ?].
    - intros r s' w rest x2 Hnd (vn & Hvn & ->)%getExtension_Some_inv.
      apply NoDup_appendNew. by apply NoDup_cons in Hnd as [_ ?].
    - intros i x' _ (vn & Hvn & ->)%getExtension_Some_inv.
      by apply NoDup_appendNew. }
  rewrite Forall_forall in Hall. exact (Hall _ Hin).
Qed.

Lemma extensions_have_no_duplicates_witness : NoDup [2; 1].
Proof.
  apply (extensions_have_no_duplicates gTri 3 noSelf 4 [0] [2; 1] 0).
  - intros i. constructor.
  - solve_elem_of.
Defined.

(** X17.  On a graph without edges, with the self-initialised collection
    empty, [enumerateSubgraph(k)] prints nothing unless [k] is 1. *)
Theorem no_edges_no_output (g : Graph) (k : Z)
    (self : Z → list Z) (fuel : nat) :
  (∀ v vn, vertexAt g v = Some vn → edgeHead vn = []) →
  (∀ i, self i = []) →
  to_size_t k ≠ 1 →
  printed (enumerateSubgraph fuel g k self).1 = [].
Proof.
  intros Hempty Hself Hk.
  assert (Forall (eventInv bareInv)
            (enumerateSubgraph fuel g k self).1) as Hall.
  { apply anchorLoop_inv; unfold bareInv.
    - by intros r s w rest [_ ?].
    - by intros r s w rest x2 [_ ?].
    - intros i x _ (vn & Hvn & ->)%getExtension_Some_inv.
      by rewrite (Hempty _ _ Hvn), Hself. }
  apply elem_of_nil_inv. intros line Hin.
  destruct (printed_inv _ _ _ Hall Hin) as (r & s & x & [-> _] & ->).
  apply elem_of_printed in Hin.
  pose proof (anchorLoop_events fuel fuel g k self 0) as Hev.
  rewrite Forall_forall in Hev. destruct (Hev _ Hin) as [r' [Hlen _]].
  simpl in Hlen. lia.
Qed.

Lemma no_edges_no_output_witness :
  printed (enumerateSubgraph 4 (loadLabels 3 []) 2 noSelf).1 = [].
Proof.
  apply (no_edges_no_output (loadLabels 3 []) 2 noSelf 4).
  - apply loadLabels_edgeHead.
  - done.
  - vm_compute. discriminate.
Defined.

Lemma enumerateSubgraph_k1_printed_witness :
  printed (enumerateSubgraph 4 gTri 1 noSelf).1 =
  (λ n, [Z.of_nat n + 1]) <$> seq 0 (Z.to_nat (size gTri) + 1).
Proof.
  apply (enumerateSubgraph_k1_printed 4 gTri noSelf).
  - apply reachable_wf, gTri_reachable.
  - reflexivity.
  - vm_compute. lia.
Defined.

(** * [k = 2] *)

Lemma printed_app t1 t2 : printed (t1 ++ t2) = printed t1 ++ printed t2.
Proof. apply omap_app. Qed.

Lemma printed_cons_silent e t :
  (∀ line, e ≠ EvPrint line) → printed (e :: t) = printed t.
Proof. intros He. destruct e; try done. by destruct (He line). Qed.

Lemma extendSubgraph_k2_leaf depth g i w x :
  extendSubgraph (S depth) g ([i] ++ [w]) x i 2 =
  ([EvExtend [i; w] x i; EvPrint [i + 1; w + 1]], Ret x).
Proof. reflexivity. Qed.

Lemma extendLoop_k2 depth g i x :
  closed g → inArray g x →
  printed (extendLoop g (λ s e, extendSubgraph (S depth) g s e i 2)
                      i 2 [i] x).1 = (λ w, [i + 1; w + 1]) <$> x ∧
  ∃ r, (extendLoop g (λ s e, extendSubgraph (S depth) g s e i 2)
                   i 2 [i] x).2 = Ret r.
Proof.
  intros Hcl Hx. induction x as [| w rest IH]; cbn [extendLoop].
  { split; [done | by eexists]. }
  apply Forall_cons in Hx as [Hw Hrest].
  destruct (IH Hrest) as [IHp [r IHr]].
  change (Z.of_nat (length [i]) <? to_size_t 2) with true. cbv iota.
  rewrite removelast_last, callGetExtension_eq.
  destruct (getExtension_inArray g w rest Hcl Hw Hrest) as (e2 & -> & _).
  unfold mbind at 1 3, M_bind at 1 3. cbn [fst snd].
  rewrite extendSubgraph_k2_leaf.
  unfold mbind, M_bind. cbn [fst snd].
  split; [| by eexists].
  rewrite !printed_app, IHp. done.
Qed.

Lemma anchorLoop_k2_printed fuel depth g self i0 :
  closed g →
  (∀ j, i0 ≤ j ≤ size g → is_Some (vertexAt g j)) →
  (∀ i, self i = []) →
  anchorFuel g i0 fuel →
  printed (anchorLoop fuel (S (S depth)) g 2 self i0).1 =
  mjoin ((λ n, (λ w, [i0 + Z.of_nat n + 1; w + 1])
                 <$> firstExtension g (i0 + Z.of_nat n))
         <$> seq 0 (Z.to_nat (size g - i0 + 1))).
Proof.
  intros Hcl. revert i0.
  induction fuel as [| fuel IH]; intros i0 Hin Hself Hfuel;
    cbn [anchorLoop];
    destruct (Z.leb_spec i0 (size g)) as [Hle | Hgt].
  - unfold anchorFuel in Hfuel. lia.
  - replace (Z.to_nat (size g - i0 + 1)) with 0%nat by lia. done.
  - destruct (Hin i0) as [vn Hvn]; [lia |].
    rewrite callGetExtension_eq, (getExtension_eq _ _ _ _ Hvn), Hself.
    unfold mbind at 1, M_bind at 1. cbn [fst snd].
    assert (inArray g (extensionAbove i0 (edgeHead vn) [])) as Hx.
    { apply Forall_forall. intros u [Hu | [Hu _]]%elem_of_extensionAbove.
      - by apply elem_of_nil in Hu.
      - by apply (Hcl _ _ Hvn). }
    destruct (extendLoop_k2 depth g i0 _ Hcl Hx) as [Hp [r Hr]].
    cbn [extendSubgraph]. rewrite tell_bind.
    change (Z.of_nat (length ([] ++ [i0])) =? to_size_t 2) with false.
    cbv iota. change ([] ++ [i0]) with [i0].
    destruct (extendLoop g _ i0 2 [i0] _) as [t o]. simpl in Hr, Hp.
    subst o. unfold mbind, M_bind. cbn [fst snd].
    rewrite !printed_app, !printed_cons_silent by done.
    change (printed []) with (@nil (list Z)). rewrite app_nil_l, Hp.
    rewrite IH; [| intros j Hj; apply Hin; lia | done |
                 unfold anchorFuel in *; lia].
    replace (Z.to_nat (size g - i0 + 1))
      with (S (Z.to_nat (size g - (i0 + 1) + 1))) by lia.
    cbn [seq fmap list_fmap mjoin list_join].
    rewrite <- fmap_S_seq, <- list_fmap_compose.
    unfold firstExtension at 2. rewrite Z.add_0_r, Hvn.
    f_equal. f_equal.
    apply list_fmap_ext. intros _ n _. simpl.
    replace (i0 + 1 + Z.of_nat n) with (i0 + Z.of_nat (S n)) by lia.
    done.
  - replace (Z.to_nat (size g - i0 + 1)) with 0%nat by lia. done.
Qed.

Lemma firstExtension_size g :
  edgeInv g → firstExtension g (size g) = [].
Proof.
  intros Hinv. unfold firstExtension.
  destruct (vertexAt g (size g)) as [vn |] eqn:Hvn; [| done].
  apply elem_of_nil_inv. intros u [Hu | [Hu Hlt]]%elem_of_extensionAbove.
  - by apply elem_of_nil in Hu.
  - destruct (Hinv _ _ Hvn _ Hu). lia.
Qed.

(** X20.  For [k = 2], on a graph that satisfies the representation
    invariants and leaves a slot of the array unused, with the
    self-initialised collection empty: the output is, for the vertices
    [i = 0, 1, ..., size - 1] in this order, one line "i+1 u+1" for every
    entry [u > i] of the chain of [i], in chain order, repeated entries once.
    An edge stored only in the chain of its larger end is never printed. *)
Theorem enumerateSubgraph_k2_printed (g : Graph) (self : Z → list Z)
    (fuel : nat) :
  wf g → edgeInv g → size g < MAX_VERTICES → (∀ i, self i = []) →
  (Z.to_nat (size g) + 1 < fuel)%nat →
  printed (enumerateSubgraph fuel g 2 self).1 =
  mjoin ((λ i, (λ w, [i + 1; w + 1]) <$> firstExtension g i)
         <$> indices (size g)).
Proof.
  intros Hwf Hinv Hlt Hself Hfuel. unfold enumerateSubgraph.
  destruct fuel as [| [| depth]]; [lia | lia |].
  rewrite anchorLoop_k2_printed.
  - destruct Hwf as [_ Hsz].
    replace (Z.to_nat (size g - 0 + 1)) with (S (Z.to_nat (size g))) by lia.
    rewrite seq_S, fmap_app, join_app. cbn [fmap list_fmap mjoin list_join].
    rewrite !Z.add_0_l, Nat.add_0_l, Z2Nat.id by lia.
    rewrite (firstExtension_size g Hinv). cbn [fmap list_fmap].
    rewrite !app_nil_r. unfold indices.
    rewrite <- list_fmap_compose. done.
  - by apply wf_edgeInv_closed.
  - intros j Hj. by apply wf_slots_upto_size.
  - done.
  - unfold anchorFuel. destruct Hwf as [_ ?]. lia.
Qed.

Lemma enumerateSubgraph_k2_printed_witness :
  printed (enumerateSubgraph 5 gTri 2 noSelf).1 =
  mjoin ((λ i, (λ w, [i + 1; w + 1]) <$> firstExtension gTri i)
         <$> indices (size gTri)).
Proof.
  apply (enumerateSubgraph_k2_printed gTri noSelf 5).
  - apply reachable_wf, gTri_reachable.
  - apply reachable_edgeInv, gTri_reachable.
  - reflexivity.
  - done.
  - vm_compute. lia.
Defined.

(** * The extra anchor iteration for [k >= 2] *)

(** X21.  For [2 <= k], on a graph that satisfies the edge invariant and
    with the self-initialised collection empty, every number on every
    printed line is a vertex number between 1 and [size]: the anchor
    iteration for [root = size] contributes no line. *)
Theorem printed_numbers_are_vertices (g : Graph) (k : Z)
    (self : Z → list Z) (fuel : nat) (line : list Z) :
  edgeInv g → (∀ i, self i = []) → 2 ≤ k < 2 ^ 64 →
  line ∈ printed (enumerateSubgraph fuel g k self).1 →
  Forall (λ n, 1 ≤ n ≤ size g) line.
Proof.
  intros Hinv Hself Hk Hin.
  assert (Forall (eventInv (aboveRoot g))
            (enumerateSubgraph fuel g k self).1) as Hall.
  { apply anchorLoop_inv.
    - apply aboveRoot_pop.
    - intros r s w rest x2. by apply aboveRoot_push.
    - intros i x Hi Hx. apply (aboveRoot_init g self); auto.
      intros u Hu. rewrite Hself in Hu. by apply elem_of_nil in Hu. }
  destruct (printed_inv _ _ _ Hall Hin)
    as (r & s & x & (t & -> & Hr & Ht & _) & ->).
  apply elem_of_printed in Hin.
  pose proof (anchorLoop_events fuel fuel g k self 0) as Hev.
  rewrite Forall_forall in Hev. destruct (Hev _ Hin) as [r' [Hlen _]].
  rewrite to_size_t_small in Hlen by lia. simpl in Hlen.
  rewrite length_map in Hlen.
  destruct t as [| u t]; [simpl in Hlen; lia |].
  pose proof Ht as Ht'. apply Forall_cons in Ht' as [Hu _].
  apply Forall_forall. intros n Hn. apply list_elem_of_In in Hn.
  apply in_map_iff in Hn as (v & <- & Hv%list_elem_of_In).
  apply elem_of_cons in Hv as [-> | Hv]; [lia |].
  eapply Forall_forall in Ht; [| done]. simpl in Ht. lia.
Qed.

Lemma printed_numbers_are_vertices_witness :
  Forall (λ n, 1 ≤ n ≤ size gTri) [1; 3; 2].
Proof.
  apply (printed_numbers_are_vertices gTri 3 noSelf 4 [1; 3; 2]).
  - apply reachable_edgeInv, gTri_reachable.
  - done.
  - lia.
  - solve_elem_of.
Defined.
